(** * Relationship resolution query: a shallow embedding

    Embedding of [cognite/experimental/_relationships_query.py]:
    the endpoint filters, the [Fetcher] registry and the generator
    [RelationshipsQuery.query], with the collaborator calls of the
    Cognite client recorded in a trace. *)

From stdpp Require Import gmap strings list.

Open Scope string_scope.
Open Scope list_scope.
Open Scope nat_scope.

(** * Data model *)

(** [ResourceRef = namedtuple("ResourceRef", ["type", "external_id"])]:
    a named tuple is a tuple, compared and hashed field by field. *)
Abbreviation ResourceRef := (string * string)%type.

Definition mkResourceRef (type external_id : string) : ResourceRef :=
  (type, external_id).

(** A label as the filter reads it: [label["externalId"]]. *)
Record Label := { externalId : string }.

Inductive Exn :=
| KeyError (key : string)
| AttributeError (name : string)
| TypeError
| RecursionError
| CogniteAPIError (code : nat).

(** [Resource = Union[Asset, TimeSeries, Event, FileMetadata, Sequence]]:
    the five data classes of the SDK. Every one has an [external_id]; an
    [Asset] and a [FileMetadata] have a [labels] attribute, [None] or a
    list of labels, the three others have no such attribute. [payload]
    stands for the rest of the object and tells two resources with the
    same external id apart. *)
Module SDK.
Inductive Resource :=
| Asset (external_id : string) (labels : option (list Label)) (payload : nat)
| TimeSeries (external_id : string) (payload : nat)
| Event (external_id : string) (payload : nat)
| FileMetadata (external_id : string) (labels : option (list Label))
    (payload : nat)
| Sequence (external_id : string) (payload : nat).
End SDK.

Abbreviation Resource := SDK.Resource.

(** The attribute read [res.external_id]. *)
Definition external_id (res : Resource) : string :=
  match res with
  | SDK.Asset id _ _ | SDK.TimeSeries id _ | SDK.Event id _
  | SDK.FileMetadata id _ _ | SDK.Sequence id _ => id
  end.

(** The attribute read [resource.labels]: an object without the
    attribute raises [AttributeError]. *)
Definition labels (resource : Resource) : Exn + option (list Label) :=
  match resource with
  | SDK.Asset _ ls _ | SDK.FileMetadata _ ls _ => inr ls
  | SDK.TimeSeries _ _ | SDK.Event _ _ | SDK.Sequence _ _ =>
      inl (AttributeError "labels")
  end.

(** The fields of [Relationship] the query reads, and its own external id
    for the metadata the query does not look at. *)
Record Relationship := {
  rel_id : string;
  source_type : string;
  source_external_id : string;
  target_type : string;
  target_external_id : string
}.

Record RelationshipWithResource := {
  relationship : Relationship;
  source_resource : Resource;
  target_resource : Resource
}.

(** * Endpoint filters *)

(** The three filter classes of the module. *)
Inductive Filter :=
| RelationshipFilterBase
| RelationshipFilter (accepted : list string)
| RelationshipFilterAll.

(** [label in self.labels] on a list of strings. *)
Definition label_in (accepted : list string) (label : string) : bool :=
  bool_decide (label ∈ accepted).

(** [is_inside], dispatched on the class of the filter. The label filter
    reads [resource.labels] first, and raises what that read raises. *)
Definition is_inside (f : Filter) (resource : Resource) : Exn + bool :=
  match f with
  | RelationshipFilterBase => inr false
  | RelationshipFilter accepted =>
      match labels resource with
      | inl e => inl e
      | inr (Some ls) =>
          let labels_decoded := map externalId ls in
          inr (existsb (label_in accepted) labels_decoded)
      | inr None => inr false
      end
  | RelationshipFilterAll => inr true
  end.


(** * Collaborators: the Cognite client *)

(** The five resource APIs of the client whose [retrieve_multiple] the
    registry stores: [client.assets], [client.time_series], [client.files],
    [client.events], [client.sequences]. *)
Inductive Api := assets | time_series | files | events | sequences.

(** Keyword arguments of [client.relationships.list]. *)
Record ListArgs := {
  kw_source_external_ids : option (gset string);
  kw_source_types : option (list string);
  kw_target_external_ids : option (gset string);
  kw_target_types : option (list string);
  kw_labels : option (list string);
  kw_data_set_ids : option (list (Z + string));
  kw_limit : option Z
}.

(** The client is a collaborator: its listing call and its per-API batch
    retrieval are arbitrary functions that return or raise. The third
    argument of [api_retrieve_multiple] is the keyword [ignore_unknown_ids],
    [None] when the call does not pass it. *)
Record CogniteClient := {
  relationships_list : ListArgs → Exn + list Relationship;
  api_retrieve_multiple :
    Api → list string → option bool → Exn + list Resource
}.

(** One entry of the trace per collaborator call. *)
Inductive Event :=
| RelationshipsList (kw : ListArgs)
| RetrieveMultiple (api : Api) (external_ids : list string)
    (ignore_unknown_ids : option bool).

(** * Calls that log and may raise *)

Definition M (A : Type) : Type := list Event → list Event * (Exn + A).

Global Instance M_ret : MRet M := λ A x tr, (tr, inr x).

Global Instance M_bind : MBind M := λ A B k m tr,
  match m tr with
  | (tr', inr x) => k x tr'
  | (tr', inl e) => (tr', inl e)
  end.

Definition raise {A} (e : Exn) : M A := λ tr, (tr, inl e).

(** [try: ... except Exception as e: ...] around one computation. *)
Definition attempt {A} (m : M A) : M (Exn + A) := λ tr,
  let '(tr', r) := m tr in (tr', inr r).

Definition call_list (c : CogniteClient) (kw : ListArgs)
  : M (list Relationship) := λ tr,
  ((tr ++ [RelationshipsList kw]), relationships_list c kw).

Definition call_retrieve (c : CogniteClient) (api : Api)
    (external_ids : list string) (ignore_unknown_ids : option bool)
  : M (list Resource) := λ tr,
  ((tr ++ [RetrieveMultiple api external_ids ignore_unknown_ids]),
   api_retrieve_multiple c api external_ids ignore_unknown_ids).

(** * The Fetcher class *)

(** Attribute values of a [Fetcher] object: the flag, the bound method
    [client.<api>.retrieve_multiple] handed to the constructor, and the
    function [retrieve_multiple] defined in the class body. *)
Inductive Value :=
| VBool (b : bool)
| VBoundApi (api : Api)
| VMethod.

(** The class namespace of [Fetcher], [__init__] left out: the one
    function defined in the class body. *)
Definition Fetcher_class : gmap string Value :=
  {[ "retrieve_multiple" := VMethod ]}.

(** [Fetcher.__init__]: two assignments into the instance namespace. The
    second one stores the argument under the name the class uses for its
    method. *)
Definition Fetcher (has_ignore_unknown_ids : bool) (retrieve_multiple : Api)
  : gmap string Value :=
  <["retrieve_multiple" := VBoundApi retrieve_multiple]>
    (<["has_ignore_unknown_ids" := VBool has_ignore_unknown_ids]> ∅).

(** Attribute lookup [self.name]: the instance namespace first, then the
    class (a function in a class is a non-data descriptor, so an instance
    attribute of the same name hides it). *)
Definition getattr (self : gmap string Value) (name : string)
  : option Value :=
  match self !! name with
  | Some v => Some v
  | None => Fetcher_class !! name
  end.

(** Calling [self.retrieve_multiple(external_ids=..., [ignore_unknown_ids=...])]
    from inside the method body. Were the name to resolve to the method
    itself, the keyword would not fit its signature, and without the
    keyword the method would call itself for ever. *)
Definition call_from_method (c : CogniteClient) (self : gmap string Value)
    (external_ids : list string) (ignore_unknown_ids : option bool)
  : M (list Resource) :=
  match getattr self "retrieve_multiple" with
  | Some (VBoundApi api) => call_retrieve c api external_ids ignore_unknown_ids
  | Some VMethod =>
      match ignore_unknown_ids with
      | Some _ => raise TypeError
      | None => raise RecursionError
      end
  | Some (VBool _) => raise TypeError
  | None => raise (AttributeError "retrieve_multiple")
  end.

(** The body of the method [Fetcher.retrieve_multiple(self, external_ids)]. *)
Definition Fetcher_retrieve_multiple (c : CogniteClient)
    (self : gmap string Value) (external_ids : list string)
  : M (list Resource) :=
  match getattr self "has_ignore_unknown_ids" with
  | Some (VBool true) => call_from_method c self external_ids (Some true)
  | Some (VBool false) => call_from_method c self external_ids None
  | Some _ => call_from_method c self external_ids (Some true)
  | None => raise (AttributeError "has_ignore_unknown_ids")
  end.

(** The call [fetcher.retrieve_multiple(external_ids=external_ids)] as
    [fetch_per_type] writes it: look the attribute up, call what is found. *)
Definition call_retrieve_multiple (c : CogniteClient)
    (fetcher : gmap string Value) (external_ids : list string)
  : M (list Resource) :=
  match getattr fetcher "retrieve_multiple" with
  | Some (VBoundApi api) => call_retrieve c api external_ids None
  | Some VMethod => Fetcher_retrieve_multiple c fetcher external_ids
  | Some (VBool _) => raise TypeError
  | None => raise (AttributeError "retrieve_multiple")
  end.

(** * RelationshipsQuery *)

Record RelationshipsQuery := {
  client : CogniteClient;
  fetchers : gmap string (gmap string Value)
}.

(** [RelationshipsQuery.__init__]. *)
Definition RelationshipsQuery_init (client : CogniteClient)
  : RelationshipsQuery :=
  {| client := client;
     fetchers :=
       <["asset" := Fetcher true assets]>
       (<["timeSeries" := Fetcher true time_series]>
       (<["file" := Fetcher false files]>
       (<["event" := Fetcher true events]>
       (<["sequence" := Fetcher false sequences]> ∅)))) |}.

(** Arguments of [query], [None] for an omitted one. *)
Record QueryArgs := {
  sources : option (list Resource);
  source_types : option (list string);
  sources_filter : option Filter;
  targets : option (list Resource);
  target_types : option (list string);
  targets_filter : option Filter;
  data_set_ids : option (list (Z + string));
  query_labels : option (list string);
  limit : option Z
}.

(** The keyword arguments [query] hands to [client.relationships.list]. *)
Definition list_kwargs (a : QueryArgs) : ListArgs :=
  {| kw_source_external_ids :=
       (λ rs, list_to_set (map external_id rs)) <$> sources a;
     kw_source_types := source_types a;
     kw_target_external_ids :=
       (λ rs, list_to_set (map external_id rs)) <$> targets a;
     kw_target_types := target_types a;
     kw_labels := query_labels a;
     kw_data_set_ids := data_set_ids a;
     kw_limit := limit a |}.

(** Iteration over [set(refs)]: Python fixes no order, only that every
    element of the list comes out, once. The order is a parameter of the
    model. *)
Record SetOrder := {
  set_iter : list ResourceRef → list ResourceRef;
  set_iter_NoDup : ∀ l, NoDup (set_iter l);
  set_iter_elem : ∀ l x, x ∈ set_iter l ↔ x ∈ l
}.

(** Two orders to run the model with, one the reverse of the other. *)
Definition dedup_order : SetOrder :=
  {| set_iter := remove_dups;
     set_iter_NoDup := NoDup_remove_dups;
     set_iter_elem := λ l x, elem_of_remove_dups l x |}.

Definition reversed_order : SetOrder.
Proof.
  refine {| set_iter := λ l, reverse (remove_dups l) |}.
  - intros l. rewrite reverse_Permutation. apply NoDup_remove_dups.
  - intros l x. rewrite elem_of_reverse. apply elem_of_remove_dups.
Defined.

Definition source_ref (rel : Relationship) : ResourceRef :=
  mkResourceRef (source_type rel) (source_external_id rel).

Definition target_ref (rel : Relationship) : ResourceRef :=
  mkResourceRef (target_type rel) (target_external_id rel).

(** The list handed to [set(...)]: all source refs, then all target refs. *)
Definition endpoint_refs (relations : list Relationship) : list ResourceRef :=
  (map source_ref relations ++ map target_ref relations).

(** [resources_by_type[type].append(external_id)] on a
    [defaultdict(list)]: a dict keeps its keys in insertion order, a new
    key starts from the empty list. *)
Fixpoint defaultdict_append (d : list (string * list string))
    (type external_id : string) : list (string * list string) :=
  match d with
  | [] => [(type, [external_id])]
  | (k, ids) :: d' =>
      if decide (k = type) then (k, (ids ++ [external_id])) :: d'
      else (k, ids) :: defaultdict_append d' type external_id
  end.

Definition group_by_type (resource_refs : list ResourceRef)
  : list (string * list string) :=
  fold_left (λ d res, defaultdict_append d res.1 res.2) resource_refs [].

(** [fetch_per_type], the task function; [self.fetchers[type]] raises
    [KeyError] for a type outside the registry. *)
Definition fetch_per_type (self : RelationshipsQuery)
    (task : string * list string) : M (list (string * Resource)) :=
  let '(type, external_ids) := task in
  match fetchers self !! type with
  | None => raise (KeyError type)
  | Some fetcher =>
      resources ← call_retrieve_multiple (client self) fetcher external_ids;
      mret (map (λ res, (type, res)) resources)
  end.

(** What [query] reads of [TasksSummary]. *)
Record TasksSummary := {
  results : list (list (string * Resource));
  exceptions : list Exn
}.

Definition joined_results (s : TasksSummary) : list (string * Resource) :=
  concat (results s).

(** [utils._concurrency.execute_tasks_concurrently] of the SDK: every task
    is submitted, the futures are then read in submission order, a result
    goes to [results] and an exception to [exceptions]. The calls are
    logged in submission order; [max_workers] is the size of the thread
    pool, which this sequential reading does not use. *)
Fixpoint execute_tasks_concurrently
    (func : string * list string → M (list (string * Resource)))
    (tasks : list (string * list string)) (max_workers : nat)
  : M TasksSummary :=
  match tasks with
  | [] => mret {| results := []; exceptions := [] |}
  | task :: rest =>
      r ← attempt (func task);
      s ← execute_tasks_concurrently func rest max_workers;
      mret (match r with
            | inr res => {| results := res :: results s;
                            exceptions := exceptions s |}
            | inl e => {| results := results s;
                          exceptions := e :: exceptions s |}
            end)
  end.

(** The pool size [query] passes. *)
Definition max_workers : nat := 5.

(** The loop that fills [resources_by_ext_id]. *)
Definition join_index (items : list (string * Resource))
  : gmap ResourceRef Resource :=
  fold_left
    (λ m item, <[mkResourceRef item.1 (external_id item.2) := item.2]> m)
    items ∅.

(** One pass of the final loop body: [inr (Some item)] when the edge is
    yielded, [inr None] when the condition is false, [inl e] when a filter
    raises. The condition is an [and] chain, read left to right: the
    targets filter is asked only after the sources filter accepted. *)
Definition resolve (resources_by_ext_id : gmap ResourceRef Resource)
    (sources_filter targets_filter : Filter) (rel : Relationship)
  : Exn + option RelationshipWithResource :=
  let source_resource := resources_by_ext_id !! source_ref rel in
  let target_resource := resources_by_ext_id !! target_ref rel in
  match source_resource with
  | None => inr None
  | Some s =>
      match is_inside sources_filter s with
      | inl e => inl e
      | inr false => inr None
      | inr true =>
          match target_resource with
          | None => inr None
          | Some t =>
              match is_inside targets_filter t with
              | inl e => inl e
              | inr false => inr None
              | inr true =>
                  inr (Some {| relationship := rel;
                               source_resource := s;
                               target_resource := t |})
              end
          end
      end
  end.

(** * The generator *)

(** The local variables alive at the [yield]. *)
Record Frame := {
  fr_relations : list Relationship;
  fr_index : gmap ResourceRef Resource;
  fr_sources_filter : Filter;
  fr_targets_filter : Filter
}.

Inductive Generator :=
| GenCreated (so : SetOrder) (self : RelationshipsQuery) (args : QueryArgs)
| GenSuspended (fr : Frame)
| GenClosed.

Inductive Outcome :=
| Yield (item : RelationshipWithResource)
| StopIteration
| Raise (e : Exn).

(** Calling a generator function runs none of its body: [query] builds
    the generator object and returns. *)
Definition query (so : SetOrder) (self : RelationshipsQuery)
    (args : QueryArgs) : M Generator :=
  mret (GenCreated so self args).

(** Lines 133-169: everything before the final loop. *)
Definition prologue (so : SetOrder) (self : RelationshipsQuery)
    (args : QueryArgs) : M Frame :=
  let sources_filter := default RelationshipFilterAll (sources_filter args) in
  let targets_filter := default RelationshipFilterAll (targets_filter args) in
  relations ← call_list (client self) (list_kwargs args);
  let resource_refs := set_iter so (endpoint_refs relations) in
  let resources_by_type := group_by_type resource_refs in
  tasks_summary ←
    execute_tasks_concurrently (fetch_per_type self) resources_by_type
      max_workers;
  match exceptions tasks_summary with
  | e :: _ => raise e
  | [] =>
      mret {| fr_relations := relations;
              fr_index := join_index (joined_results tasks_summary);
              fr_sources_filter := sources_filter;
              fr_targets_filter := targets_filter |}
  end.

(** Lines 171-182: run the loop from where it stands to the next [yield],
    to an exception of a filter, or to the end of the body. *)
Fixpoint loop (idx : gmap ResourceRef Resource) (sf tf : Filter)
    (relations : list Relationship) : Outcome * Generator :=
  match relations with
  | [] => (StopIteration, GenClosed)
  | rel :: rest =>
      match resolve idx sf tf rel with
      | inl e => (Raise e, GenClosed)
      | inr (Some item) =>
          (Yield item,
           GenSuspended {| fr_relations := rest; fr_index := idx;
                           fr_sources_filter := sf;
                           fr_targets_filter := tf |})
      | inr None => loop idx sf tf rest
      end
  end.

Definition resume (fr : Frame) : Outcome * Generator :=
  loop (fr_index fr) (fr_sources_filter fr) (fr_targets_filter fr)
       (fr_relations fr).

(** [next(generator)]. An exception that leaves the body closes the
    generator. *)
Definition next (g : Generator)
  : list Event → list Event * (Outcome * Generator) := λ tr,
  match g with
  | GenCreated so self args =>
      match prologue so self args tr with
      | (tr', inl e) => (tr', (Raise e, GenClosed))
      | (tr', inr fr) => (tr', resume fr)
      end
  | GenSuspended fr => (tr, resume fr)
  | GenClosed => (tr, (StopIteration, GenClosed))
  end.

(** [list(generator)]: advance until the generator stops or raises. *)
Fixpoint consume (fuel : nat) (g : Generator) (tr : list Event)
  : option (list Event * (Exn + list RelationshipWithResource)) :=
  match fuel with
  | 0 => None
  | S fuel' =>
      match next g tr with
      | (tr', (Yield item, g')) =>
          match consume fuel' g' tr' with
          | Some (tr'', inr items) => Some (tr'', inr (item :: items))
          | other => other
          end
      | (tr', (StopIteration, _)) => Some (tr', inr [])
      | (tr', (Raise e, _)) => Some (tr', inl e)
      end
  end.

(** [list(rel_query.query(...))]: the call, then the generator drained. *)
Definition list_query (fuel : nat) (so : SetOrder)
    (self : RelationshipsQuery) (args : QueryArgs) (tr : list Event)
  : option (list Event * (Exn + list RelationshipWithResource)) :=
  match query so self args tr with
  | (tr', inr g) => consume fuel g tr'
  | (tr', inl e) => Some (tr', inl e)
  end.

(** [for item in generator: ...]: the items the generator yields, one
    advance after the other, until it stops ([None]) or raises
    ([Some e]); the items yielded before an exception have reached the
    caller. *)
Fixpoint iterate (fuel : nat) (g : Generator) (tr : list Event)
  : option (list Event * (list RelationshipWithResource * option Exn)) :=
  match fuel with
  | 0 => None
  | S fuel' =>
      match next g tr with
      | (tr', (Yield item, g')) =>
          match iterate fuel' g' tr' with
          | Some (tr'', (items, stop)) => Some (tr'', (item :: items, stop))
          | None => None
          end
      | (tr', (StopIteration, _)) => Some (tr', ([], None))
      | (tr', (Raise e, _)) => Some (tr', ([], Some e))
      end
  end.

(** * Names for what one run computes *)

(** The final loop run to its end over a list of edges: the items it
    yields, and the exception that ends it if a filter raises. *)
Fixpoint yielded (idx : gmap ResourceRef Resource) (sf tf : Filter)
    (relations : list Relationship)
  : list RelationshipWithResource * option Exn :=
  match relations with
  | [] => ([], None)
  | rel :: rest =>
      match resolve idx sf tf rel with
      | inl e => ([], Some e)
      | inr None => yielded idx sf tf rest
      | inr (Some item) =>
          (item :: (yielded idx sf tf rest).1, (yielded idx sf tf rest).2)
      end
  end.

(** What [list(...)] makes of a run: the exception if there is one. *)
Definition outcome_of (run : list RelationshipWithResource * option Exn)
  : Exn + list RelationshipWithResource :=
  match run.2 with
  | Some e => inl e
  | None => inr run.1
  end.

(** The tasks [query] hands to the pool: [resources_by_type.items()]. *)
Definition tasks_of (so : SetOrder) (relations : list Relationship)
  : list (string * list string) :=
  group_by_type (set_iter so (endpoint_refs relations)).

(** The collaborator calls one task makes, and how it ends. *)
Definition task_events (self : RelationshipsQuery)
    (task : string * list string) : list Event :=
  (fetch_per_type self task []).1.

Definition task_outcome (self : RelationshipsQuery)
    (task : string * list string) : Exn + list (string * Resource) :=
  (fetch_per_type self task []).2.

Definition fetch_events (self : RelationshipsQuery)
    (tasks : list (string * list string)) : list Event :=
  concat (map (task_events self) tasks).

(** The summary of a list of task outcomes, in task order. *)
Fixpoint summarize (outcomes : list (Exn + list (string * Resource)))
  : TasksSummary :=
  match outcomes with
  | [] => {| results := []; exceptions := [] |}
  | inr res :: rest =>
      {| results := res :: results (summarize rest);
         exceptions := exceptions (summarize rest) |}
  | inl e :: rest =>
      {| results := results (summarize rest);
         exceptions := e :: exceptions (summarize rest) |}
  end.

Definition summary_of (so : SetOrder) (self : RelationshipsQuery)
    (relations : list Relationship) : TasksSummary :=
  summarize (map (task_outcome self) (tasks_of so relations)).

(** The join index of a run whose fetches all returned. *)
Definition index_of (so : SetOrder) (self : RelationshipsQuery)
    (relations : list Relationship) : gmap ResourceRef Resource :=
  join_index (joined_results (summary_of so self relations)).

(** The API a registry entry ends up calling. *)
Definition registry_api (self : RelationshipsQuery) (type : string)
  : option Api :=
  fetchers self !! type ≫= λ fetcher,
    match getattr fetcher "retrieve_multiple" with
    | Some (VBoundApi api) => Some api
    | _ => None
    end.

(** The external ids of one type among a list of refs, in list order. *)
Definition ids_of (type : string) (refs : list ResourceRef) : list string :=
  (filter (λ r, r.1 = type) refs).*2.

Definition with_sources_filter (f : option Filter) (a : QueryArgs)
  : QueryArgs :=
  {| sources := sources a; source_types := source_types a;
     sources_filter := f;
     targets := targets a; target_types := target_types a;
     targets_filter := targets_filter a;
     data_set_ids := data_set_ids a; query_labels := query_labels a;
     limit := limit a |}.

Definition with_targets_filter (f : option Filter) (a : QueryArgs)
  : QueryArgs :=
  {| sources := sources a; source_types := source_types a;
     sources_filter := sources_filter a;
     targets := targets a; target_types := target_types a;
     targets_filter := f;
     data_set_ids := data_set_ids a; query_labels := query_labels a;
     limit := limit a |}.

Definition with_sources (rs : option (list Resource)) (a : QueryArgs)
  : QueryArgs :=
  {| sources := rs; source_types := source_types a;
     sources_filter := sources_filter a;
     targets := targets a; target_types := target_types a;
     targets_filter := targets_filter a;
     data_set_ids := data_set_ids a; query_labels := query_labels a;
     limit := limit a |}.

Definition with_targets (rs : option (list Resource)) (a : QueryArgs)
  : QueryArgs :=
  {| sources := sources a; source_types := source_types a;
     sources_filter := sources_filter a;
     targets := rs; target_types := target_types a;
     targets_filter := targets_filter a;
     data_set_ids := data_set_ids a; query_labels := query_labels a;
     limit := limit a |}.

(** What the grouping loop maintains: [d] is the dict after the refs [l]
    have been appended. *)
Definition grouped (d : list (string * list string)) (l : list ResourceRef)
  : Prop :=
  NoDup d.*1
  ∧ (∀ ty ids, (ty, ids) ∈ d → ids = ids_of ty l ∧ ids ≠ [])
  ∧ (∀ r, r ∈ l → r.1 ∈ d.*1).

(** The items a drained generator handed out: none when it raised. *)
Definition emitted (res : Exn + list RelationshipWithResource)
  : list RelationshipWithResource :=
  match res with
  | inr out => out
  | inl _ => []
  end.

(** A generator whose body has been entered. *)
Definition started (g : Generator) : Prop :=
  match g with
  | GenCreated _ _ _ => False
  | GenSuspended _ | GenClosed => True
  end.

(** The registry keys of [__init__], the closed set of resource types. *)
Definition registry_types : list string :=
  ["asset"; "timeSeries"; "file"; "event"; "sequence"].

(** The API a logged call went to, and the registry key of each API. *)
Definition called_api (ev : Event) : option Api :=
  match ev with
  | RetrieveMultiple api _ _ => Some api
  | RelationshipsList _ => None
  end.

Definition type_name (api : Api) : string :=
  match api with
  | assets => "asset"
  | time_series => "timeSeries"
  | files => "file"
  | events => "event"
  | sequences => "sequence"
  end.

(** The retrieval call the task of a registry type makes. *)
Definition task_call (self : RelationshipsQuery)
    (task : string * list string) : option Event :=
  (λ api, RetrieveMultiple api task.2 None) <$> registry_api self task.1.

(** * A small catalog to run the model on *)

Definition pump : Resource :=
  SDK.Asset "A" (Some [{| externalId := "Pump" |}]) 1.
Definition valve : Resource :=
  SDK.Asset "B" (Some [{| externalId := "Valve" |}]) 2.
Definition flow : Resource := SDK.TimeSeries "T" 3.
Definition manual : Resource := SDK.FileMetadata "F" (Some []) 4.

Definition demo_catalog (api : Api) : list Resource :=
  match api with
  | assets => [pump; valve]
  | time_series => [flow]
  | files => [manual]
  | events | sequences => []
  end.

Definition find_resource (catalog : list Resource) (id : string)
  : option Resource :=
  list_find (λ r, external_id r = id) catalog ≫= λ p, Some p.2.

(** A catalog API as the service behaves: an unknown external id fails
    the batch unless the call asks to ignore unknown ids. *)
Definition demo_retrieve (api : Api) (ids : list string)
    (ignore_unknown_ids : option bool) : Exn + list Resource :=
  let found := omap (find_resource (demo_catalog api)) ids in
  if decide (length found = length ids) then inr found
  else match ignore_unknown_ids with
       | Some true => inr found
       | _ => inl (CogniteAPIError 400)
       end.

Definition edge (id st sid tt tid : string) : Relationship :=
  {| rel_id := id; source_type := st; source_external_id := sid;
     target_type := tt; target_external_id := tid |}.

Definition demo_relations : list Relationship :=
  [ edge "r1" "asset" "A" "timeSeries" "T";
    edge "r2" "asset" "A" "asset" "B";
    edge "r3" "asset" "B" "asset" "A";
    edge "r4" "asset" "A" "file" "F" ].

Definition demo_client (relations : list Relationship) : CogniteClient :=
  {| relationships_list := λ _, inr relations;
     api_retrieve_multiple := demo_retrieve |}.

(** The same service with the files API refusing access. *)
Definition denied_client (relations : list Relationship) : CogniteClient :=
  {| relationships_list := λ _, inr relations;
     api_retrieve_multiple := λ api ids kw,
       match api with
       | files => inl (CogniteAPIError 403)
       | _ => demo_retrieve api ids kw
       end |}.

(** A test double that leaves unknown ids out whatever the call asks. *)
Definition lenient_client (relations : list Relationship) : CogniteClient :=
  {| relationships_list := λ _, inr relations;
     api_retrieve_multiple := λ api ids _,
       inr (omap (find_resource (demo_catalog api)) ids) |}.

Definition no_args : QueryArgs :=
  {| sources := None; source_types := None; sources_filter := None;
     targets := None; target_types := None; targets_filter := None;
     data_set_ids := None; query_labels := None; limit := None |}.

(** Two items the demo query hands out. *)
Definition item_r2 : RelationshipWithResource :=
  {| relationship := edge "r2" "asset" "A" "asset" "B";
     source_resource := pump; target_resource := valve |}.

Definition item_r3 : RelationshipWithResource :=
  {| relationship := edge "r3" "asset" "B" "asset" "A";
     source_resource := valve; target_resource := pump |}.

(** What the demo query hands out, and the calls it makes. *)
Definition demo_items : list RelationshipWithResource :=
  [ {| relationship := edge "r1" "asset" "A" "timeSeries" "T";
       source_resource := pump; target_resource := flow |};
    item_r2; item_r3;
    {| relationship := edge "r4" "asset" "A" "file" "F";
       source_resource := pump; target_resource := manual |} ].

Definition demo_calls : list Event :=
  [ RelationshipsList (list_kwargs no_args);
    RetrieveMultiple time_series ["T"] None;
    RetrieveMultiple assets ["B"; "A"] None;
    RetrieveMultiple files ["F"] None ].

(** * Theorems *)

(** * Running the model: how each piece logs and returns *)

Section Runs.
Context (self : RelationshipsQuery).

Lemma call_from_method_run fetcher ids kw tr :
  call_from_method (client self) fetcher ids kw tr =
    ((tr ++ (call_from_method (client self) fetcher ids kw []).1),
     (call_from_method (client self) fetcher ids kw []).2).
Proof.
  unfold call_from_method.
  destruct (getattr fetcher "retrieve_multiple") as [[b|api|]|];
    [| |destruct kw|]; simpl; by rewrite ?app_nil_r.
Qed.

Lemma call_retrieve_multiple_run fetcher ids tr :
  call_retrieve_multiple (client self) fetcher ids tr =
    ((tr ++ (call_retrieve_multiple (client self) fetcher ids []).1),
     (call_retrieve_multiple (client self) fetcher ids []).2).
Proof.
  unfold call_retrieve_multiple, Fetcher_retrieve_multiple.
  destruct (getattr fetcher "retrieve_multiple") as [[b|api|]|];
    simpl; rewrite ?app_nil_r; try done.
  destruct (getattr fetcher "has_ignore_unknown_ids") as [[[]|api|]|];
    simpl; rewrite ?app_nil_r; try done; apply call_from_method_run.
Qed.

Lemma fetch_per_type_run task tr :
  fetch_per_type self task tr =
    ((tr ++ task_events self task), task_outcome self task).
Proof.
  unfold task_events, task_outcome, fetch_per_type.
  destruct task as [type ids].
  destruct (fetchers self !! type) as [fetcher|]; simpl;
    [|by rewrite app_nil_r].
  unfold mbind, M_bind.
  rewrite (call_retrieve_multiple_run fetcher ids tr).
  destruct (call_retrieve_multiple (client self) fetcher ids [])
    as [evs [e|rs]]; done.
Qed.

Lemma execute_tasks_concurrently_run tasks w tr :
  execute_tasks_concurrently (fetch_per_type self) tasks w tr =
    ((tr ++ fetch_events self tasks),
     inr (summarize (map (task_outcome self) tasks))).
Proof.
  revert tr. induction tasks as [|task rest IH]; intros tr.
  - simpl. by rewrite app_nil_r.
  - cbn [execute_tasks_concurrently]. unfold mbind, M_bind, attempt.
    rewrite fetch_per_type_run, IH.
    unfold fetch_events. cbn [map concat summarize].
    rewrite <-!app_assoc.
    by destruct (task_outcome self task).
Qed.

End Runs.

(** * The prologue and the drained generator *)

Section Generator.
Context (so : SetOrder) (self : RelationshipsQuery) (args : QueryArgs).

Lemma prologue_listing_fails e tr :
  relationships_list (client self) (list_kwargs args) = inl e →
  prologue so self args tr =
    ((tr ++ [RelationshipsList (list_kwargs args)]), inl e).
Proof.
  intros Hlist. unfold prologue, mbind, M_bind, call_list.
  by rewrite Hlist.
Qed.

Lemma prologue_run rels tr :
  relationships_list (client self) (list_kwargs args) = inr rels →
  prologue so self args tr =
    ((tr ++ RelationshipsList (list_kwargs args)
          :: fetch_events self (tasks_of so rels)),
     match exceptions (summary_of so self rels) with
     | e :: _ => inl e
     | [] =>
         inr {| fr_relations := rels;
                fr_index := index_of so self rels;
                fr_sources_filter :=
                  default RelationshipFilterAll (sources_filter args);
                fr_targets_filter :=
                  default RelationshipFilterAll (targets_filter args) |}
     end).
Proof.
  intros Hlist. unfold prologue, mbind, M_bind, call_list.
  rewrite Hlist, execute_tasks_concurrently_run.
  fold (tasks_of so rels). fold (summary_of so self rels).
  rewrite <-app_assoc. cbn [app].
  by destruct (exceptions (summary_of so self rels)).
Qed.

(** One advance of the loop against the run of the loop to its end. *)
Lemma loop_spec idx sf tf rels :
  match yielded idx sf tf rels with
  | ([], None) => loop idx sf tf rels = (StopIteration, GenClosed)
  | ([], Some e) => loop idx sf tf rels = (Raise e, GenClosed)
  | (item :: items, stop) =>
      ∃ rest,
        loop idx sf tf rels =
          (Yield item,
           GenSuspended {| fr_relations := rest; fr_index := idx;
                           fr_sources_filter := sf;
                           fr_targets_filter := tf |})
        ∧ yielded idx sf tf rest = (items, stop)
        ∧ length rest < length rels
  end.
Proof.
  induction rels as [|rel rest IH]; [done|].
  cbn [loop yielded].
  destruct (resolve idx sf tf rel) as [e|[item|]].
  - done.
  - exists rest. cbn [length]. split; [done|]. split; [|lia].
    by destruct (yielded idx sf tf rest).
  - destruct (yielded idx sf tf rest) as [[|item items] [e|]]; try done.
    + destruct IH as (rest' & ? & ? & ?). exists rest'. cbn [length].
      split; [done|]. split; [done|lia].
    + destruct IH as (rest' & ? & ? & ?). exists rest'. cbn [length].
      split; [done|]. split; [done|lia].
Qed.

Lemma iterate_loop idx sf tf rels fuel tr :
  length rels < fuel →
  iterate fuel
    (GenSuspended {| fr_relations := rels; fr_index := idx;
                     fr_sources_filter := sf; fr_targets_filter := tf |})
    tr
  = Some (tr, yielded idx sf tf rels).
Proof.
  revert rels. induction fuel as [|fuel IH]; intros rels Hfuel; [lia|].
  cbn [iterate next]. unfold resume.
  cbn [fr_relations fr_index fr_sources_filter fr_targets_filter].
  pose proof (loop_spec idx sf tf rels) as Hloop.
  destruct (yielded idx sf tf rels) as [[|item items] [e|]].
  - by rewrite Hloop.
  - by rewrite Hloop.
  - destruct Hloop as (rest & -> & Hrest & Hlen).
    rewrite IH by lia. by rewrite Hrest.
  - destruct Hloop as (rest & -> & Hrest & Hlen).
    rewrite IH by lia. by rewrite Hrest.
Qed.

(** [list(...)] keeps the items of a run that did not raise. *)
Lemma consume_iterate fuel g tr :
  consume fuel g tr = (λ p, (p.1, outcome_of p.2)) <$> iterate fuel g tr.
Proof.
  revert g tr. induction fuel as [|fuel IH]; intros g tr; [done|].
  cbn [consume iterate].
  destruct (next g tr) as [tr' [[item| |e] g']]; [|done..].
  rewrite IH.
  destruct (iterate fuel g' tr') as [[tr'' [items [e|]]]|]; done.
Qed.

Lemma consume_loop idx sf tf rels fuel tr :
  length rels < fuel →
  consume fuel
    (GenSuspended {| fr_relations := rels; fr_index := idx;
                     fr_sources_filter := sf; fr_targets_filter := tf |})
    tr
  = Some (tr, outcome_of (yielded idx sf tf rels)).
Proof.
  intros Hfuel. by rewrite consume_iterate, iterate_loop.
Qed.

(** Draining the fresh generator: the prologue, then the loop. *)
Lemma consume_created fuel tr :
  consume (S fuel) (GenCreated so self args) tr =
    match prologue so self args tr with
    | (tr', inl e) => Some (tr', inl e)
    | (tr', inr fr) => consume (S fuel) (GenSuspended fr) tr'
    end.
Proof.
  cbn [consume next].
  by destruct (prologue so self args tr) as [tr' [e|fr]].
Qed.

Lemma iterate_created fuel tr :
  iterate (S fuel) (GenCreated so self args) tr =
    match prologue so self args tr with
    | (tr', inl e) => Some (tr', ([], Some e))
    | (tr', inr fr) => iterate (S fuel) (GenSuspended fr) tr'
    end.
Proof.
  cbn [iterate next].
  by destruct (prologue so self args tr) as [tr' [e|fr]].
Qed.

Lemma iterate_query_ok rels fuel tr :
  relationships_list (client self) (list_kwargs args) = inr rels →
  exceptions (summary_of so self rels) = [] →
  length rels < fuel →
  iterate fuel (GenCreated so self args) tr =
    Some (tr ++ RelationshipsList (list_kwargs args)
             :: fetch_events self (tasks_of so rels),
          yielded (index_of so self rels)
            (default RelationshipFilterAll (sources_filter args))
            (default RelationshipFilterAll (targets_filter args))
            rels).
Proof.
  intros Hlist Hexc Hfuel.
  destruct fuel as [|fuel]; [lia|].
  rewrite iterate_created, (prologue_run rels) by done.
  rewrite Hexc. by apply iterate_loop.
Qed.

Lemma iterate_query_fetch_fails rels e es fuel tr :
  relationships_list (client self) (list_kwargs args) = inr rels →
  exceptions (summary_of so self rels) = e :: es →
  0 < fuel →
  iterate fuel (GenCreated so self args) tr =
    Some (tr ++ RelationshipsList (list_kwargs args)
             :: fetch_events self (tasks_of so rels),
          ([], Some e)).
Proof.
  intros Hlist Hexc Hfuel.
  destruct fuel as [|fuel]; [lia|].
  rewrite iterate_created, (prologue_run rels) by done.
  by rewrite Hexc.
Qed.

Lemma list_query_iterate fuel tr :
  list_query fuel so self args tr
  = (λ p, (p.1, outcome_of p.2)) <$> iterate fuel (GenCreated so self args) tr.
Proof. unfold list_query, query. cbn [mret M_ret]. apply consume_iterate. Qed.

Lemma list_query_ok rels fuel tr :
  relationships_list (client self) (list_kwargs args) = inr rels →
  exceptions (summary_of so self rels) = [] →
  length rels < fuel →
  list_query fuel so self args tr =
    Some (tr ++ RelationshipsList (list_kwargs args)
              :: fetch_events self (tasks_of so rels),
          outcome_of
            (yielded (index_of so self rels)
               (default RelationshipFilterAll (sources_filter args))
               (default RelationshipFilterAll (targets_filter args))
               rels)).
Proof.
  intros Hlist Hexc Hfuel.
  by rewrite list_query_iterate, (iterate_query_ok rels).
Qed.

Lemma list_query_fetch_fails rels e es fuel tr :
  relationships_list (client self) (list_kwargs args) = inr rels →
  exceptions (summary_of so self rels) = e :: es →
  0 < fuel →
  list_query fuel so self args tr =
    Some ((tr ++ RelationshipsList (list_kwargs args)
              :: fetch_events self (tasks_of so rels)),
          inl e).
Proof.
  intros Hlist Hexc Hfuel. unfold list_query, query. cbn [mret M_ret].
  destruct fuel as [|fuel]; [lia|].
  rewrite consume_created, (prologue_run rels) by done.
  by rewrite Hexc.
Qed.

Lemma list_query_listing_fails e fuel tr :
  relationships_list (client self) (list_kwargs args) = inl e →
  0 < fuel →
  list_query fuel so self args tr =
    Some ((tr ++ [RelationshipsList (list_kwargs args)]), inl e).
Proof.
  intros Hlist Hfuel. unfold list_query, query. cbn [mret M_ret].
  destruct fuel as [|fuel]; [lia|].
  by rewrite consume_created, (prologue_listing_fails e).
Qed.

End Generator.

(** * Grouping the refs by type *)

Lemma defaultdict_append_keys d k v :
  (defaultdict_append d k v).*1 =
    if decide (k ∈ d.*1) then d.*1 else (d.*1 ++ [k]).
Proof.
  induction d as [|[k' ids'] d IH]; [done|].
  cbn [defaultdict_append]. destruct (decide (k' = k)) as [->|Hne].
  - cbn [fmap list_fmap fst]. rewrite decide_True; [done|by left].
  - cbn [fmap list_fmap fst] in *. rewrite IH.
    destruct (decide (k ∈ d.*1)) as [Hin|Hnin].
    + rewrite decide_True; [done|by right].
    + rewrite decide_False; [done|].
      rewrite elem_of_cons. by intros [?|?].
Qed.

Lemma defaultdict_append_elem d k v ty ids :
  NoDup d.*1 →
  (ty, ids) ∈ defaultdict_append d k v →
  (ty ≠ k ∧ (ty, ids) ∈ d)
  ∨ (ty = k ∧ ∃ ids0, ids = (ids0 ++ [v])
                      ∧ ((k, ids0) ∈ d ∨ (ids0 = [] ∧ k ∉ d.*1))).
Proof.
  induction d as [|[k' ids'] d IH]; intros Hnd Hin.
  - apply list_elem_of_singleton in Hin as [= -> ->].
    right. split; [done|]. exists []. split; [done|].
    right. split; [done|]. apply not_elem_of_nil.
  - cbn [fmap list_fmap fst] in Hnd. apply NoDup_cons in Hnd as [Hk' Hnd].
    cbn [defaultdict_append] in Hin.
    destruct (decide (k' = k)) as [->|Hne].
    + apply elem_of_cons in Hin as [[= -> ->]|Hin].
      * right. split; [done|]. exists ids'. split; [done|]. left. by left.
      * left. split; [|by right].
        intros ->. apply Hk'.
        by apply (list_elem_of_fmap_2 fst) in Hin.
    + apply elem_of_cons in Hin as [[= -> ->]|Hin].
      * left. split; [done|by left].
      * destruct (IH Hnd Hin) as [[? ?]|(-> & ids0 & -> & Hcase)].
        { left. split; [done|by right]. }
        right. split; [done|]. exists ids0. split; [done|].
        destruct Hcase as [?|[-> Hnin]]; [left; by right|].
        right. split; [done|].
        cbn [fmap list_fmap fst]. rewrite elem_of_cons. by intros [?|?].
Qed.

Lemma ids_of_snoc ty l r :
  ids_of ty (l ++ [r]) =
    (ids_of ty l ++ if decide (r.1 = ty) then [r.2] else []).
Proof.
  unfold ids_of. rewrite filter_app, fmap_app. f_equal.
  destruct (decide (r.1 = ty)) as [Heq|Hne].
  - by rewrite filter_cons_True.
  - by rewrite filter_cons_False.
Qed.

Lemma elem_of_ids_of ty id refs :
  id ∈ ids_of ty refs ↔ (ty, id) ∈ refs.
Proof.
  unfold ids_of. rewrite list_elem_of_fmap. split.
  - intros ([ty' id'] & -> & Hin).
    by apply list_elem_of_filter in Hin as [<- Hin].
  - intros Hin. exists (ty, id). split; [done|].
    by apply list_elem_of_filter.
Qed.

Lemma ids_of_NoDup ty refs : NoDup refs → NoDup (ids_of ty refs).
Proof.
  intros Hnd. unfold ids_of. apply NoDup_fmap_2_strong.
  - intros [t1 i1] [t2 i2] H1 H2 Heq.
    apply list_elem_of_filter in H1 as [H1 _].
    apply list_elem_of_filter in H2 as [H2 _].
    simpl in *. congruence.
  - by apply NoDup_filter.
Qed.

Lemma grouped_step d l r :
  grouped d l → grouped (defaultdict_append d r.1 r.2) (l ++ [r]).
Proof.
  intros (Hnd & Hids & Hkeys). unfold grouped. split; [|split].
  - rewrite defaultdict_append_keys. case_decide; [done|].
    apply NoDup_app. split; [done|]. split; [|apply NoDup_singleton].
    by intros x Hx ->%list_elem_of_singleton.
  - intros ty ids Hin.
    destruct (defaultdict_append_elem _ _ _ _ _ Hnd Hin)
      as [[Hne Hin']|(-> & ids0 & -> & Hc)].
    + rewrite ids_of_snoc, decide_False, app_nil_r by done.
      by apply Hids.
    + rewrite ids_of_snoc, decide_True by done.
      split; [|by destruct ids0]. f_equal.
      destruct Hc as [Hin'|[-> Hnin]]; [by apply Hids|].
      symmetry. apply elem_of_nil_inv. intros id Hid.
      apply elem_of_ids_of in Hid. by apply Hkeys in Hid.
  - intros r' Hr'. rewrite defaultdict_append_keys.
    apply elem_of_app in Hr' as [Hr'| ->%list_elem_of_singleton].
    + case_decide; [by apply Hkeys|].
      apply elem_of_app. left. by apply Hkeys.
    + case_decide; [done|]. apply elem_of_app. right. by left.
Qed.

Lemma grouped_fold rs d l :
  grouped d l →
  grouped (fold_left (λ d res, defaultdict_append d res.1 res.2) rs d)
          (l ++ rs).
Proof.
  revert d l. induction rs as [|r rs IH]; intros d l Hg.
  - by rewrite app_nil_r.
  - cbn [fold_left]. rewrite cons_middle, app_assoc.
    apply IH. by apply grouped_step.
Qed.

Lemma group_by_type_grouped refs : grouped (group_by_type refs) refs.
Proof.
  apply (grouped_fold refs [] []). unfold grouped. split; [|split].
  - constructor.
  - intros ty ids Hin. by apply elem_of_nil in Hin.
  - intros r Hr. by apply elem_of_nil in Hr.
Qed.

(** * The dispatched tasks *)

Lemma elem_of_endpoint_refs rels ty id :
  (ty, id) ∈ endpoint_refs rels
  ↔ ∃ rel, rel ∈ rels ∧ (source_ref rel = (ty, id) ∨ target_ref rel = (ty, id)).
Proof.
  unfold endpoint_refs. rewrite elem_of_app.
  change (map source_ref rels) with (source_ref <$> rels).
  change (map target_ref rels) with (target_ref <$> rels).
  rewrite !list_elem_of_fmap. split.
  - intros [(rel & Heq & Hin)|(rel & Heq & Hin)]; exists rel; auto.
  - intros (rel & Hin & [Heq|Heq]); [left|right]; by exists rel.
Qed.

Section Tasks.
Context (so : SetOrder) (rels : list Relationship).

Lemma tasks_types_NoDup : NoDup (tasks_of so rels).*1.
Proof. apply (group_by_type_grouped (set_iter so (endpoint_refs rels))). Qed.

Lemma tasks_ids ty ids :
  (ty, ids) ∈ tasks_of so rels →
  ids ≠ [] ∧ NoDup ids ∧ ∀ id, id ∈ ids ↔ (ty, id) ∈ endpoint_refs rels.
Proof.
  intros Hin.
  destruct (group_by_type_grouped (set_iter so (endpoint_refs rels)))
    as (_ & Hids & _).
  destruct (Hids ty ids Hin) as [-> Hne]. split; [done|]. split.
  - apply ids_of_NoDup, set_iter_NoDup.
  - intros id. by rewrite elem_of_ids_of, set_iter_elem.
Qed.

Lemma tasks_types ty :
  ty ∈ (tasks_of so rels).*1 ↔ ∃ id, (ty, id) ∈ endpoint_refs rels.
Proof.
  destruct (group_by_type_grouped (set_iter so (endpoint_refs rels)))
    as (_ & Hids & Hkeys).
  split.
  - intros ([ty' ids] & -> & Hin)%list_elem_of_fmap. simpl.
    destruct (tasks_ids ty' ids Hin) as (Hne & _ & Hmem).
    destruct ids as [|id ids]; [done|].
    exists id. apply Hmem. by left.
  - intros (id & Hin).
    apply (Hkeys (ty, id)). by apply set_iter_elem.
Qed.

End Tasks.

(** Every collaborator call of a task carries the ids of the task. *)
Lemma task_events_ids self ty ids ev :
  ev ∈ task_events self (ty, ids) →
  ∃ api kw, ev = RetrieveMultiple api ids kw.
Proof.
  unfold task_events, fetch_per_type.
  destruct (fetchers self !! ty) as [fetcher|];
    [|by intros ?%elem_of_nil].
  unfold mbind, M_bind, call_retrieve_multiple, Fetcher_retrieve_multiple,
    call_from_method.
  destruct (getattr fetcher "retrieve_multiple") as [[b|api|]|]; simpl;
    try by intros ?%elem_of_nil.
  - destruct (api_retrieve_multiple _ _ _ _); simpl;
      intros ->%list_elem_of_singleton; eauto.
  - destruct (getattr fetcher "has_ignore_unknown_ids") as [[[]|api|]|];
      simpl; by intros ?%elem_of_nil.
Qed.

(** A registry entry built by [Fetcher] calls the stored API directly,
    without the keyword. *)
Lemma call_retrieve_multiple_Fetcher c flag api ids tr :
  call_retrieve_multiple c (Fetcher flag api) ids tr =
    ((tr ++ [RetrieveMultiple api ids None]),
     api_retrieve_multiple c api ids None).
Proof. done. Qed.

Lemma registry_entries c ty fetcher :
  fetchers (RelationshipsQuery_init c) !! ty = Some fetcher →
  ∃ flag api, fetcher = Fetcher flag api
              ∧ registry_api (RelationshipsQuery_init c) ty = Some api.
Proof.
  unfold registry_api. cbn [fetchers RelationshipsQuery_init].
  intros Hlook. rewrite Hlook. cbn [mbind option_bind].
  repeat (rewrite lookup_insert in Hlook; case_decide);
    [..|by rewrite lookup_empty in Hlook];
    injection Hlook as <-; eauto.
Qed.

Lemma registry_task_events c ty ids :
  task_events (RelationshipsQuery_init c) (ty, ids) =
    match registry_api (RelationshipsQuery_init c) ty with
    | Some api => [RetrieveMultiple api ids None]
    | None => []
    end.
Proof.
  unfold task_events, fetch_per_type.
  destruct (fetchers (RelationshipsQuery_init c) !! ty) as [fetcher|] eqn:Hf.
  - destruct (registry_entries c ty fetcher Hf) as (flag & api & -> & ->).
    unfold mbind, M_bind. rewrite call_retrieve_multiple_Fetcher.
    by destruct (api_retrieve_multiple _ _ _ _).
  - unfold registry_api. by rewrite Hf.
Qed.

(** * The summary of the task outcomes *)

Lemma summarize_first_failure {T} (f : T → Exn + list (string * Resource))
    (tasks : list T) :
  (∃ t e, t ∈ tasks ∧ f t = inl e) →
  ∃ pre t e post es,
    tasks = (pre ++ t :: post)
    ∧ (∀ t', t' ∈ pre → ∃ res, f t' = inr res)
    ∧ f t = inl e
    ∧ exceptions (summarize (map f tasks)) = e :: es.
Proof.
  induction tasks as [|t0 tasks IH]; intros (t & e & Hin & Hfail).
  - by apply elem_of_nil in Hin.
  - destruct (f t0) as [e0|res0] eqn:Hf0.
    + exists [], t0, e0, tasks, (exceptions (summarize (map f tasks))).
      cbn [map summarize]. rewrite Hf0. split; [done|].
      split; [by intros t' ?%elem_of_nil|done].
    + apply elem_of_cons in Hin as [->|Hin]; [congruence|].
      destruct IH as (pre & t1 & e1 & post & es & -> & Hpre & Hf1 & Hexc);
        [by eauto|].
      exists (t0 :: pre), t1, e1, post, es.
      cbn [map summarize]. rewrite Hf0. split; [done|].
      split; [|done].
      intros t' [->|Ht']%elem_of_cons; eauto.
Qed.

Lemma summarize_no_failure {T} (f : T → Exn + list (string * Resource))
    (tasks : list T) :
  exceptions (summarize (map f tasks)) = []
  ↔ ∀ t, t ∈ tasks → ∃ res, f t = inr res.
Proof.
  induction tasks as [|t0 tasks IH]; cbn [map summarize].
  - split; [by intros _ t ?%elem_of_nil|done].
  - destruct (f t0) as [e0|res0] eqn:Hf0; cbn [exceptions].
    + split; [done|]. intros Hall.
      destruct (Hall t0) as [res Hres]; [by left|congruence].
    + rewrite IH. split.
      * intros Hall t [->|Ht]%elem_of_cons; eauto.
      * intros Hall t Ht. apply Hall. by right.
Qed.

(** * The join index *)

Lemma join_index_fold (items : list (string * Resource))
    (m0 : gmap ResourceRef Resource) (ref : ResourceRef) (r : Resource) :
  fold_left
    (λ m item, <[mkResourceRef item.1 (external_id item.2) := item.2]> m)
    items m0 !! ref = Some r →
  m0 !! ref = Some r ∨ ((ref.1, r) ∈ items ∧ external_id r = ref.2).
Proof.
  revert m0. induction items as [|[ty r'] items IH]; intros m0 Hlook.
  - by left.
  - cbn [fold_left fst snd] in Hlook.
    destruct (IH _ Hlook) as [Hm|[Hin Hid]].
    + rewrite lookup_insert in Hm. case_decide as Hkey.
      * injection Hm as <-. subst ref. right. split; [by left|done].
      * by left.
    + right. split; [by right|done].
Qed.

(** An entry of the join index is a resource a fetch of that type
    returned, filed under its own external id. *)
Lemma join_index_lookup items ty id r :
  join_index items !! (ty, id) = Some r →
  (ty, r) ∈ items ∧ external_id r = id.
Proof.
  intros Hlook. destruct (join_index_fold items ∅ (ty, id) r Hlook)
    as [Hempty|?]; [|done].
  by rewrite lookup_empty in Hempty.
Qed.

(** * The final loop *)

Lemma resolve_Some idx sf tf rel item :
  resolve idx sf tf rel = inr (Some item)
  ↔ relationship item = rel
    ∧ idx !! source_ref rel = Some (source_resource item)
    ∧ idx !! target_ref rel = Some (target_resource item)
    ∧ is_inside sf (source_resource item) = inr true
    ∧ is_inside tf (target_resource item) = inr true.
Proof.
  unfold resolve. split.
  - destruct (idx !! source_ref rel) as [s|]; [|done].
    destruct (is_inside sf s) as [e|[]] eqn:Hs; [done| |done].
    destruct (idx !! target_ref rel) as [t|]; [|done].
    destruct (is_inside tf t) as [e|[]] eqn:Ht; [done| |done].
    by intros [= <-].
  - destruct item as [rel' s t]. simpl.
    intros (-> & -> & -> & -> & ->). done.
Qed.

(** A filter raises only by the read of [labels], and only the label
    filter does. *)
Lemma is_inside_raises f r e :
  is_inside f r = inl e →
  labels r = inl e ∧ e = AttributeError "labels"
  ∧ ∃ accepted, f = RelationshipFilter accepted.
Proof.
  destruct f as [|accepted|]; [done| |done]. simpl.
  destruct r as [id [ls|] p|id p|id p|id [ls|] p|id p]; simpl; try done;
    intros [= <-]; eauto.
Qed.

Lemma resolve_raises idx sf tf rel e :
  resolve idx sf tf rel = inl e →
  ∃ ref r, idx !! ref = Some r
           ∧ (is_inside sf r = inl e ∨ is_inside tf r = inl e).
Proof.
  unfold resolve.
  destruct (idx !! source_ref rel) as [s|] eqn:Hs; [|done].
  destruct (is_inside sf s) as [e'|[]] eqn:Hsf; [| |done].
  - intros [= ->]. eauto.
  - destruct (idx !! target_ref rel) as [t|] eqn:Ht; [|done].
    destruct (is_inside tf t) as [e'|[]] eqn:Htf; [|done..].
    intros [= ->]. eauto.
Qed.

Lemma yielded_elem idx sf tf rels item :
  item ∈ (yielded idx sf tf rels).1 →
  ∃ rel, rel ∈ rels ∧ resolve idx sf tf rel = inr (Some item).
Proof.
  induction rels as [|rel rels IH]; cbn [yielded].
  - by intros ?%elem_of_nil.
  - destruct (resolve idx sf tf rel) as [e|[item'|]] eqn:Hres; cbn [fst].
    + by intros ?%elem_of_nil.
    + intros [->|Hin]%elem_of_cons.
      * exists rel. split; [by left|done].
      * destruct (IH Hin) as (rel' & ? & ?). exists rel'.
        split; [by right|done].
    + intros Hin. destruct (IH Hin) as (rel' & ? & ?). exists rel'.
      split; [by right|done].
Qed.

Lemma yielded_complete idx sf tf rels rel item :
  (yielded idx sf tf rels).2 = None →
  rel ∈ rels → resolve idx sf tf rel = inr (Some item) →
  item ∈ (yielded idx sf tf rels).1.
Proof.
  induction rels as [|rel0 rels IH]; cbn [yielded]; intros Hstop Hin Hres.
  - by apply elem_of_nil in Hin.
  - destruct (resolve idx sf tf rel0) as [e|[item0|]] eqn:Hres0;
      cbn [fst snd] in *; [done|..].
    + apply elem_of_cons in Hin as [->|Hin].
      * rewrite Hres0 in Hres. injection Hres as ->. by left.
      * right. by apply IH.
    + apply elem_of_cons in Hin as [->|Hin]; [congruence|]. by apply IH.
Qed.

Lemma yielded_no_raise idx sf tf rels :
  (∀ rel e, rel ∈ rels → resolve idx sf tf rel ≠ inl e) →
  (yielded idx sf tf rels).2 = None.
Proof.
  induction rels as [|rel rels IH]; intros Hall; [done|]. cbn [yielded].
  destruct (resolve idx sf tf rel) as [e|[item|]] eqn:Hres; cbn [snd].
  - destruct (Hall rel e); [by left|done].
  - apply IH. intros rel' e Hin. apply Hall. by right.
  - apply IH. intros rel' e Hin. apply Hall. by right.
Qed.


Lemma yielded_sublist idx sf tf rels :
  sublist (relationship <$> (yielded idx sf tf rels).1) rels.
Proof.
  induction rels as [|rel rels IH]; [constructor|].
  cbn [yielded].
  destruct (resolve idx sf tf rel) as [e|[item|]] eqn:Hres; cbn [fst].
  - apply sublist_nil_l.
  - apply resolve_Some in Hres as (<- & _).
    cbn [fmap list_fmap]. by constructor.
  - by constructor.
Qed.

(** * The claims *)

(** C6: on a resource that has the [labels] attribute (an asset, a file)
    the label filter is as the claim says: true exactly when the label
    collection is there and one of its external ids is an accepted label,
    false when [labels] is [None]. On a resource without the attribute (a
    time series, an event, a sequence) the read of [resource.labels]
    raises [AttributeError], where the claim says the filter yields
    false. *)
Theorem label_filter_raises_without_labels_attribute
    (accepted : list string) (r : Resource) :
  (is_inside (RelationshipFilter accepted) r = inr true
   ↔ ∃ ls, labels r = inr (Some ls)
           ∧ ∃ l, l ∈ ls ∧ externalId l ∈ accepted)
  ∧ (labels r = inr None →
     is_inside (RelationshipFilter accepted) r = inr false)
  ∧ (∀ e, labels r = inl e →
          is_inside (RelationshipFilter accepted) r = inl e)
  ∧ (∀ id p,
       is_inside (RelationshipFilter accepted) (SDK.TimeSeries id p)
       = inl (AttributeError "labels")
       ∧ is_inside (RelationshipFilter accepted) (SDK.Event id p)
         = inl (AttributeError "labels")
       ∧ is_inside (RelationshipFilter accepted) (SDK.Sequence id p)
         = inl (AttributeError "labels")).
Proof.
  split; [|split; [|split]].
  - simpl. destruct (labels r) as [e|[ls|]].
    + split; [done|]. by intros (ls' & [=] & _).
    + split.
      * intros [= Hex]. exists ls. split; [done|].
        apply existsb_exists in Hex as (x & Hin & Hacc).
        apply in_map_iff in Hin as (l & <- & Hl).
        exists l. split; [by apply list_elem_of_In|].
        by apply bool_decide_eq_true in Hacc.
      * intros (ls' & [= <-] & l & Hl & Hacc). f_equal.
        apply existsb_exists. exists (externalId l). split.
        -- apply in_map. by apply list_elem_of_In.
        -- by apply bool_decide_eq_true.
    + split; [done|]. by intros (ls' & [=] & _).
  - intros Hnone. simpl. by rewrite Hnone.
  - intros e He. simpl. by rewrite He.
  - done.
Qed.

(** C1: when the listing and every fetch returned and every resource in
    the join index has a [labels] attribute, the query is as the claim
    says: it returns, and a listed edge has a resolved edge in the output
    exactly when both its refs have an entry in the join index and both
    filters accept their entry. When a label filter meets a resolved
    endpoint without the attribute, the query raises [AttributeError]
    instead of dropping the edge: on the demo listing with the label
    filter of the docstring as targets filter, the first edge has a time
    series as target and the drained query is that exception, with no
    item, where the claim has the two asset-to-asset edges emitted. *)
Theorem query_raises_on_endpoint_without_labels :
  (∀ (so : SetOrder) (self : RelationshipsQuery) (args : QueryArgs)
     (rels : list Relationship) (tr : list Event) (fuel : nat),
     relationships_list (client self) (list_kwargs args) = inr rels →
     exceptions (summary_of so self rels) = [] →
     length rels < fuel →
     (∀ ref r, index_of so self rels !! ref = Some r →
               ∃ v, labels r = inr v) →
     ∃ tr' out,
       list_query fuel so self args tr = Some (tr', inr out)
       ∧ ∀ rel, rel ∈ rels →
           (∃ item, item ∈ out ∧ relationship item = rel)
           ↔ (∃ s t,
                index_of so self rels !! source_ref rel = Some s
                ∧ index_of so self rels !! target_ref rel = Some t
                ∧ is_inside
                    (default RelationshipFilterAll (sources_filter args)) s
                  = inr true
                ∧ is_inside
                    (default RelationshipFilterAll (targets_filter args)) t
                  = inr true))
  ∧ index_of dedup_order
      (RelationshipsQuery_init (demo_client demo_relations)) demo_relations
      !! ("timeSeries", "T") = Some flow
  ∧ is_inside (RelationshipFilter ["Pump"; "Valve"]) flow
    = inl (AttributeError "labels")
  ∧ list_query 5 dedup_order
      (RelationshipsQuery_init (demo_client demo_relations))
      (with_targets_filter (Some (RelationshipFilter ["Pump"; "Valve"]))
         no_args)
      []
    = Some (demo_calls, inl (AttributeError "labels"))
  ∧ iterate 5
      (GenCreated dedup_order
         (RelationshipsQuery_init (demo_client demo_relations))
         (with_targets_filter (Some (RelationshipFilter ["Pump"; "Valve"]))
            no_args))
      []
    = Some (demo_calls, ([], Some (AttributeError "labels"))).
Proof.
  split; [|repeat split; vm_compute; reflexivity].
  intros so self args rels tr fuel Hlist Hexc Hfuel Hattr.
  set (idx := index_of so self rels) in *.
  set (sf := default RelationshipFilterAll (sources_filter args)).
  set (tf := default RelationshipFilterAll (targets_filter args)).
  assert (Hstop : (yielded idx sf tf rels).2 = None).
  { apply yielded_no_raise. intros rel e _ Hres.
    apply resolve_raises in Hres as (ref & r & Hr & [Hin|Hin]);
      apply is_inside_raises in Hin as (Hlab & _);
      destruct (Hattr ref r Hr) as [v Hv]; congruence. }
  eexists _, (yielded idx sf tf rels).1. split.
  - rewrite (list_query_ok so self args rels) by done.
    fold idx sf tf. unfold outcome_of. by rewrite Hstop.
  - intros rel Hrel. split.
    + intros (item & Hin & <-).
      apply yielded_elem in Hin as (rel' & _ & Hres).
      apply resolve_Some in Hres as (<- & ? & ? & ? & ?). eauto 10.
    + intros (s & t & Hs & Ht & Hsf & Htf).
      exists {| relationship := rel; source_resource := s;
                target_resource := t |}.
      split; [|done]. apply (yielded_complete idx sf tf rels rel); [done..|].
      by apply resolve_Some.
Qed.

(** C3: when a dispatched fetch task fails, the first advance of the
    generator raises the exception of the first failing task in the order
    the pool reports them, as it is, and closes the generator: draining
    the query gives that exception and no item, whatever the other tasks
    returned. *)
Theorem fetch_failure_raises_first_exception
    (so : SetOrder) (self : RelationshipsQuery) (args : QueryArgs)
    (rels : list Relationship) (tr : list Event) :
  relationships_list (client self) (list_kwargs args) = inr rels →
  (∃ task e, task ∈ tasks_of so rels ∧ task_outcome self task = inl e) →
  ∃ pre task e post tr',
    tasks_of so rels = (pre ++ task :: post)
    ∧ (∀ t, t ∈ pre → ∃ res, task_outcome self t = inr res)
    ∧ task_outcome self task = inl e
    ∧ next (GenCreated so self args) tr = (tr', (Raise e, GenClosed))
    ∧ (∀ fuel, 0 < fuel →
         list_query fuel so self args tr = Some (tr', inl e)).
Proof.
  intros Hlist Hfail.
  destruct (summarize_first_failure (task_outcome self) (tasks_of so rels)
              Hfail)
    as (pre & task & e & post & es & Htasks & Hpre & Htask & Hexc).
  exists pre, task, e, post. eexists.
  split; [done|]. split; [done|]. split; [done|]. split.
  - cbn [next]. rewrite (prologue_run so self args rels tr Hlist).
    unfold summary_of. by rewrite Hexc.
  - intros fuel Hfuel.
    by apply (list_query_fetch_fails so self args rels e es).
Qed.

Lemma fetch_failure_raises_first_exception_witness :
  ∃ tr',
    next (GenCreated dedup_order
            (RelationshipsQuery_init (denied_client demo_relations))
            no_args) []
    = (tr', (Raise (CogniteAPIError 403), GenClosed)).
Proof.
  destruct (fetch_failure_raises_first_exception dedup_order
              (RelationshipsQuery_init (denied_client demo_relations))
              no_args demo_relations [])
    as (pre & task & e & post & tr' & Htasks & _ & Htask & Hnext & _).
  - reflexivity.
  - exists ("file", ["F"]), (CogniteAPIError 403).
    split; [|reflexivity].
    vm_compute. do 2 constructor. constructor.
  - exists tr'. rewrite Hnext. vm_compute in Hnext.
    by injection Hnext as _ <-.
Defined.

(** C4: the tasks of the fetch phase are one per resource type that
    occurs among the endpoints of the listed edges; the ids of a task are
    the external ids of its type over the sources and targets of all
    listed edges, each once; and the first advance makes, after the
    listing call, one retrieval call per task of a registry type, with
    the ids of the task. *)
Theorem one_fetch_per_type_with_distinct_ids
    (so : SetOrder) (c : CogniteClient) (args : QueryArgs)
    (rels : list Relationship) (tr : list Event) :
  relationships_list c (list_kwargs args) = inr rels →
  (next (GenCreated so (RelationshipsQuery_init c) args) tr).1
  = (tr ++ RelationshipsList (list_kwargs args)
        :: omap (λ task,
                   (λ api, RetrieveMultiple api task.2 None)
                     <$> registry_api (RelationshipsQuery_init c) task.1)
                (tasks_of so rels))
  ∧ NoDup (tasks_of so rels).*1
  ∧ (∀ ty, ty ∈ (tasks_of so rels).*1
           ↔ ∃ rel, rel ∈ rels ∧ (source_type rel = ty ∨ target_type rel = ty))
  ∧ (∀ ty ids, (ty, ids) ∈ tasks_of so rels →
       NoDup ids
       ∧ ∀ id, id ∈ ids
               ↔ ∃ rel, rel ∈ rels
                        ∧ (source_ref rel = (ty, id)
                           ∨ target_ref rel = (ty, id))).
Proof.
  intros Hlist. split; [|split; [|split]].
  - cbn [next].
    rewrite (prologue_run so (RelationshipsQuery_init c) args rels tr Hlist).
    assert (Hev : fetch_events (RelationshipsQuery_init c) (tasks_of so rels)
                  = omap (λ task,
                            (λ api, RetrieveMultiple api task.2 None)
                              <$> registry_api (RelationshipsQuery_init c)
                                    task.1)
                         (tasks_of so rels)).
    { unfold fetch_events.
      induction (tasks_of so rels) as [|[ty ids] tasks IH]; [done|].
      cbn [map concat omap list_omap fst snd].
      rewrite registry_task_events, IH.
      by destruct (registry_api (RelationshipsQuery_init c) ty). }
    rewrite Hev.
    by destruct (exceptions (summary_of so (RelationshipsQuery_init c) rels)).
  - apply tasks_types_NoDup.
  - intros ty. rewrite tasks_types. split.
    + intros (id & (rel & Hrel & Href)%elem_of_endpoint_refs).
      exists rel. split; [done|].
      destruct Href as [[= <- _]|[= <- _]]; auto.
    + intros (rel & Hrel & [<-|<-]).
      * exists (source_external_id rel).
        apply elem_of_endpoint_refs. exists rel. auto.
      * exists (target_external_id rel).
        apply elem_of_endpoint_refs. exists rel. auto.
  - intros ty ids Hin.
    destruct (tasks_ids so rels ty ids Hin) as (_ & Hnd & Hmem).
    split; [done|]. intros id.
    by rewrite Hmem, elem_of_endpoint_refs.
Qed.

Lemma one_fetch_per_type_with_distinct_ids_witness :
  (next (GenCreated dedup_order
           (RelationshipsQuery_init (demo_client demo_relations)) no_args)
        []).1
  = [ RelationshipsList (list_kwargs no_args);
      RetrieveMultiple time_series ["T"] None;
      RetrieveMultiple assets ["B"; "A"] None;
      RetrieveMultiple files ["F"] None ].
Proof.
  destruct (one_fetch_per_type_with_distinct_ids dedup_order
              (demo_client demo_relations) no_args demo_relations [])
    as (Htrace & _).
  - reflexivity.
  - rewrite Htrace. vm_compute. reflexivity.
Defined.

(** C5: for every listing, set order, client and filters, iterating the
    query to its end terminates, and the edges under the items it yielded
    (also those yielded before a filter raised) are a subsequence of the
    listed edges in listing order; so are the edges of the list a drained
    query returns. The loop keeps that order from any suspended state,
    whatever the join index holds, so whatever the fetches returned and
    in whatever order they completed. *)
Theorem output_is_subsequence_of_listing
    (so : SetOrder) (self : RelationshipsQuery) (args : QueryArgs)
    (rels : list Relationship) (tr : list Event) (fuel : nat) :
  relationships_list (client self) (list_kwargs args) = inr rels →
  length rels < fuel →
  (∃ tr' items stop,
     iterate fuel (GenCreated so self args) tr = Some (tr', (items, stop))
     ∧ sublist (relationship <$> items) rels
     ∧ ∃ res,
         list_query fuel so self args tr = Some (tr', res)
         ∧ sublist (relationship <$> emitted res) rels)
  ∧ (∀ idx sf tf tr0,
       ∃ items stop,
         iterate fuel
           (GenSuspended {| fr_relations := rels; fr_index := idx;
                            fr_sources_filter := sf;
                            fr_targets_filter := tf |}) tr0
         = Some (tr0, (items, stop))
         ∧ sublist (relationship <$> items) rels).
Proof.
  intros Hlist Hfuel. split.
  - destruct (exceptions (summary_of so self rels)) as [|e es] eqn:Hexc.
    + pose proof (iterate_query_ok so self args rels fuel tr Hlist Hexc Hfuel)
        as Hit.
      destruct (yielded (index_of so self rels)
                  (default RelationshipFilterAll (sources_filter args))
                  (default RelationshipFilterAll (targets_filter args)) rels)
        as [items stop] eqn:Hy.
      eexists _, items, stop. split; [exact Hit|].
      assert (Hsub : sublist (relationship <$> items) rels).
      { pose proof (yielded_sublist (index_of so self rels)
          (default RelationshipFilterAll (sources_filter args))
          (default RelationshipFilterAll (targets_filter args)) rels) as H'.
        by rewrite Hy in H'. }
      split; [done|].
      exists (outcome_of (items, stop)). split.
      * by rewrite list_query_iterate, Hit.
      * unfold outcome_of. destruct stop; [apply sublist_nil_l|done].
    + assert (0 < fuel) as Hpos by lia.
      pose proof (iterate_query_fetch_fails so self args rels e es fuel tr
                    Hlist Hexc Hpos) as Hit.
      eexists _, [], (Some e). split; [exact Hit|].
      split; [apply sublist_nil_l|].
      exists (inl e). split; [|apply sublist_nil_l].
      by rewrite list_query_iterate, Hit.
  - intros idx sf tf tr0.
    exists (yielded idx sf tf rels).1, (yielded idx sf tf rels).2.
    split; [|apply yielded_sublist].
    rewrite iterate_loop by done. by destruct (yielded idx sf tf rels).
Qed.

Lemma output_is_subsequence_of_listing_witness :
  ∃ tr' items stop,
    iterate 5
      (GenCreated reversed_order
         (RelationshipsQuery_init (demo_client demo_relations))
         (with_sources_filter (Some (RelationshipFilter ["Pump"])) no_args))
      []
    = Some (tr', (items, stop))
    ∧ rel_id <$> (relationship <$> items) = ["r1"; "r2"; "r4"]
    ∧ sublist (relationship <$> items) demo_relations.
Proof.
  destruct (output_is_subsequence_of_listing reversed_order
              (RelationshipsQuery_init (demo_client demo_relations))
              (with_sources_filter (Some (RelationshipFilter ["Pump"]))
                 no_args)
              demo_relations [] 5)
    as ((tr' & items & stop & Hit & Hsub & _) & _).
  - reflexivity.
  - simpl. lia.
  - exists tr', items, stop. split; [exact Hit|]. split; [|exact Hsub].
    vm_compute in Hit. injection Hit as _ <- _. reflexivity.
Defined.

(** * Omitted filters *)

Lemma consume_ext fuel g g' tr :
  next g tr = next g' tr → consume fuel g tr = consume fuel g' tr.
Proof. destruct fuel as [|fuel]; [done|]. cbn [consume]. by intros ->. Qed.

Lemma prologue_filters so self args args' tr :
  list_kwargs args = list_kwargs args' →
  default RelationshipFilterAll (sources_filter args)
  = default RelationshipFilterAll (sources_filter args') →
  default RelationshipFilterAll (targets_filter args)
  = default RelationshipFilterAll (targets_filter args') →
  prologue so self args tr = prologue so self args' tr.
Proof. unfold prologue. by intros -> -> ->. Qed.

(** C7: the accept-all filter accepts every resource; a query whose
    sources filter (targets filter) is omitted advances and drains exactly
    as the query given the accept-all filter for that endpoint; and with
    both omitted, when the listing and the fetches returned, a listed
    edge is in the output exactly when both its refs have an entry in the
    join index. *)
Theorem omitted_filter_accepts_all
    (so : SetOrder) (self : RelationshipsQuery) (args : QueryArgs)
    (tr : list Event) :
  (∀ r, is_inside RelationshipFilterAll r = inr true)
  ∧ (sources_filter args = None →
     let args' := with_sources_filter (Some RelationshipFilterAll) args in
     next (GenCreated so self args) tr = next (GenCreated so self args') tr
     ∧ ∀ fuel,
         list_query fuel so self args tr = list_query fuel so self args' tr)
  ∧ (targets_filter args = None →
     let args' := with_targets_filter (Some RelationshipFilterAll) args in
     next (GenCreated so self args) tr = next (GenCreated so self args') tr
     ∧ ∀ fuel,
         list_query fuel so self args tr = list_query fuel so self args' tr)
  ∧ (∀ rels fuel,
       sources_filter args = None →
       targets_filter args = None →
       relationships_list (client self) (list_kwargs args) = inr rels →
       exceptions (summary_of so self rels) = [] →
       length rels < fuel →
       ∃ tr' out,
         list_query fuel so self args tr = Some (tr', inr out)
         ∧ ∀ rel, rel ∈ rels →
             (∃ item, item ∈ out ∧ relationship item = rel)
             ↔ is_Some (index_of so self rels !! source_ref rel)
               ∧ is_Some (index_of so self rels !! target_ref rel)).
Proof.
  split; [done|]. split; [|split].
  - intros Hsf args'.
    assert (Hnext : next (GenCreated so self args) tr
                    = next (GenCreated so self args') tr).
    { cbn [next].
      rewrite (prologue_filters so self args args' tr); [done|done| |done].
      by rewrite Hsf. }
    split; [done|]. intros fuel. unfold list_query, query.
    cbn [mret M_ret]. by apply consume_ext.
  - intros Htf args'.
    assert (Hnext : next (GenCreated so self args) tr
                    = next (GenCreated so self args') tr).
    { cbn [next]. rewrite (prologue_filters so self args args' tr); [done..|].
      by rewrite Htf. }
    split; [done|]. intros fuel. unfold list_query, query.
    cbn [mret M_ret]. by apply consume_ext.
  - intros rels fuel Hsf Htf Hlist Hexc Hfuel.
    set (idx := index_of so self rels).
    assert (Hstop : (yielded idx RelationshipFilterAll RelationshipFilterAll
                       rels).2 = None).
    { apply yielded_no_raise. intros rel e _ Hres.
      apply resolve_raises in Hres as (ref & r & _ & [Hin|Hin]); done. }
    eexists _, (yielded idx RelationshipFilterAll RelationshipFilterAll
                  rels).1.
    split.
    { rewrite (list_query_ok so self args rels) by done.
      rewrite Hsf, Htf. cbn [default]. fold idx.
      unfold outcome_of. by rewrite Hstop. }
    intros rel Hrel. split.
    + intros (item & Hin & <-).
      apply yielded_elem in Hin as (rel' & _ & Hres).
      apply resolve_Some in Hres as (<- & -> & -> & _). eauto.
    + intros [[s Hs] [t Ht]].
      exists {| relationship := rel; source_resource := s;
                target_resource := t |}.
      split; [|done].
      apply (yielded_complete idx _ _ rels rel); [done..|].
      by apply resolve_Some.
Qed.

Lemma omitted_filter_accepts_all_witness :
  ∃ tr' out,
    list_query 6 dedup_order
      (RelationshipsQuery_init
         (lenient_client (edge "r5" "asset" "A" "event" "E" :: demo_relations)))
      no_args []
    = Some (tr', inr out)
    ∧ relationship <$> out = demo_relations.
Proof.
  destruct (omitted_filter_accepts_all dedup_order
              (RelationshipsQuery_init
                 (lenient_client
                    (edge "r5" "asset" "A" "event" "E" :: demo_relations)))
              no_args [])
    as (_ & _ & _ & Hdrop).
  destruct (Hdrop (edge "r5" "asset" "A" "event" "E" :: demo_relations) 6)
    as (tr' & out & Hrun & _).
  - reflexivity.
  - reflexivity.
  - reflexivity.
  - vm_compute. reflexivity.
  - simpl. lia.
  - exists tr', out. split; [exact Hrun|].
    vm_compute in Hrun. injection Hrun as _ <-. reflexivity.
Defined.

(** * Empty groups and the empty listing *)

Lemma set_iter_nil so : set_iter so [] = [].
Proof.
  apply elem_of_nil_inv. intros x Hx.
  apply set_iter_elem in Hx. by apply elem_of_nil in Hx.
Qed.

Lemma next_created_trace so self args rels tr :
  relationships_list (client self) (list_kwargs args) = inr rels →
  (next (GenCreated so self args) tr).1
  = (tr ++ RelationshipsList (list_kwargs args)
        :: fetch_events self (tasks_of so rels)).
Proof.
  intros Hlist. cbn [next]. rewrite (prologue_run so self args rels tr Hlist).
  by destruct (exceptions (summary_of so self rels)).
Qed.

Lemma fetch_events_elem self tasks ev :
  ev ∈ fetch_events self tasks
  ↔ ∃ task, task ∈ tasks ∧ ev ∈ task_events self task.
Proof.
  unfold fetch_events. rewrite list_elem_of_In, in_concat. split.
  - intros (evs & (task & <- & Htask)%in_map_iff & Hev).
    exists task. by rewrite !list_elem_of_In.
  - intros (task & Htask & Hev). exists (task_events self task).
    split; [apply in_map|]; by apply list_elem_of_In.
Qed.

(** C8: every task the query dispatches, and every retrieval call the
    first advance makes, carries at least one external id; when the
    listing is empty there is no task, the only collaborator call is the
    listing, and the drained query is the empty list. *)
Theorem no_empty_fetch_group
    (so : SetOrder) (self : RelationshipsQuery) (args : QueryArgs)
    (rels : list Relationship) (tr : list Event) :
  relationships_list (client self) (list_kwargs args) = inr rels →
  (∀ ty ids, (ty, ids) ∈ tasks_of so rels →
     ids ≠ [] ∧ ∃ rel, rel ∈ rels ∧ (source_type rel = ty ∨ target_type rel = ty))
  ∧ (∃ evs,
       (next (GenCreated so self args) tr).1
       = (tr ++ RelationshipsList (list_kwargs args) :: evs)
       ∧ ∀ api ids kw, RetrieveMultiple api ids kw ∈ evs → ids ≠ [])
  ∧ (rels = [] →
     tasks_of so rels = []
     ∧ next (GenCreated so self args) tr
       = ((tr ++ [RelationshipsList (list_kwargs args)]),
          (StopIteration, GenClosed))
     ∧ ∀ fuel, 0 < fuel →
         list_query fuel so self args tr
         = Some ((tr ++ [RelationshipsList (list_kwargs args)]), inr [])).
Proof.
  intros Hlist. split; [|split].
  - intros ty ids Hin. split; [by apply (tasks_ids so rels ty ids)|].
    assert (Hty : ty ∈ (tasks_of so rels).*1)
      by (by apply (list_elem_of_fmap_2 fst) in Hin).
    apply tasks_types in Hty as (id & (rel & Hrel & Href)%elem_of_endpoint_refs).
    exists rel. split; [done|].
    destruct Href as [[= <- _]|[= <- _]]; auto.
  - exists (fetch_events self (tasks_of so rels)).
    split; [by apply next_created_trace|].
    intros api ids kw ([ty ids'] & Htask & Hev)%fetch_events_elem.
    apply task_events_ids in Hev as (api' & kw' & [= _ -> _]).
    by apply (tasks_ids so rels ty ids').
  - intros ->.
    assert (Htasks : tasks_of so [] = [])
      by (unfold tasks_of, endpoint_refs; cbn [map app];
          by rewrite set_iter_nil).
    split; [done|].
    assert (Hpro : prologue so self args tr
                   = ((tr ++ [RelationshipsList (list_kwargs args)]),
                      inr {| fr_relations := [];
                             fr_index := index_of so self [];
                             fr_sources_filter :=
                               default RelationshipFilterAll
                                 (sources_filter args);
                             fr_targets_filter :=
                               default RelationshipFilterAll
                                 (targets_filter args) |})).
    { rewrite (prologue_run so self args [] tr Hlist).
      unfold summary_of. by rewrite Htasks. }
    split.
    + cbn [next]. by rewrite Hpro.
    + intros fuel Hfuel. destruct fuel as [|fuel]; [lia|].
      unfold list_query, query. cbn [mret M_ret].
      by rewrite consume_created, Hpro.
Qed.

Lemma no_empty_fetch_group_witness :
  list_query 1 reversed_order (RelationshipsQuery_init (demo_client []))
    no_args []
  = Some ([RelationshipsList (list_kwargs no_args)], inr []).
Proof.
  destruct (no_empty_fetch_group reversed_order
              (RelationshipsQuery_init (demo_client [])) no_args [] [])
    as (_ & _ & Hempty).
  - reflexivity.
  - destruct Hempty as (_ & _ & Hrun); [reflexivity|].
    apply (Hrun 1). lia.
Defined.

(** * Laziness of the call *)

Lemma loop_started idx sf tf rels : started (loop idx sf tf rels).2.
Proof.
  induction rels as [|rel rels IH]; [done|]. cbn [loop].
  by destruct (resolve idx sf tf rel) as [e|[item|]].
Qed.

(** C9: the call of [query] logs no collaborator call and raises
    nothing, it returns the fresh generator; the first advance makes the
    listing call and then every fetch call (or raises the listing's
    exception right after the listing call); and once the body has been
    entered, no later advance makes a collaborator call. *)
Theorem query_call_runs_nothing
    (so : SetOrder) (self : RelationshipsQuery) (args : QueryArgs)
    (tr : list Event) :
  query so self args tr = (tr, inr (GenCreated so self args))
  ∧ ¬ started (GenCreated so self args)
  ∧ (∀ rels,
       relationships_list (client self) (list_kwargs args) = inr rels →
       (next (GenCreated so self args) tr).1
       = (tr ++ RelationshipsList (list_kwargs args)
             :: fetch_events self (tasks_of so rels)))
  ∧ (∀ e,
       relationships_list (client self) (list_kwargs args) = inl e →
       next (GenCreated so self args) tr
       = ((tr ++ [RelationshipsList (list_kwargs args)]),
          (Raise e, GenClosed)))
  ∧ started (next (GenCreated so self args) tr).2.2
  ∧ (∀ g tr2, started g →
       (next g tr2).1 = tr2 ∧ started (next g tr2).2.2).
Proof.
  split; [done|]. split; [by intros []|]. split; [|split; [|split]].
  - intros rels Hlist. by apply next_created_trace.
  - intros e Hlist. cbn [next].
    by rewrite (prologue_listing_fails so self args e tr Hlist).
  - cbn [next]. destruct (prologue so self args tr) as [tr' [e|fr]]; [done|].
    unfold resume. cbn [snd]. apply loop_started.
  - intros g tr2 Hg. destruct g as [so' self' args'|fr|]; [done|..].
    + cbn [next fst snd]. split; [done|]. unfold resume.
      apply loop_started.
    + done.
Qed.

(** * The keys of the registry *)

Lemma registry_keys c ty :
  is_Some (fetchers (RelationshipsQuery_init c) !! ty) ↔ ty ∈ registry_types.
Proof.
  cbn [fetchers RelationshipsQuery_init]. unfold registry_types.
  rewrite !elem_of_cons, elem_of_nil.
  repeat (rewrite lookup_insert; case_decide; [subst; split; eauto 10|]).
  rewrite lookup_empty. split.
  - by intros [? ?].
  - intros H'. exfalso. repeat (destruct H' as [->|H']; [done|]). done.
Qed.

(** * The registry flag *)

(** C2: the registry entries of [__init__] never reach the method that
    reads the flag. For every registry type, calling the fetcher's
    [retrieve_multiple] with a list of ids is one call of the stored API
    without the [ignore_unknown_ids] keyword, also for the three types
    registered as tolerant; on the asset fetcher with one unknown id the
    batch fails, where the method body of the class, had it run, would
    have passed the flag and returned the known asset. *)
Theorem registry_fetch_never_ignores_unknown_ids (c : CogniteClient)
    (ids : list string) (tr : list Event) :
  (∀ ty fetcher,
     fetchers (RelationshipsQuery_init c) !! ty = Some fetcher →
     ∃ flag api,
       fetcher = Fetcher flag api
       ∧ call_retrieve_multiple c fetcher ids tr
         = ((tr ++ [RetrieveMultiple api ids None]),
            api_retrieve_multiple c api ids None))
  ∧ fetchers (RelationshipsQuery_init c) !! "asset" = Some (Fetcher true assets)
  ∧ call_retrieve_multiple (demo_client []) (Fetcher true assets) ["A"; "Z"] []
    = ([RetrieveMultiple assets ["A"; "Z"] None], inl (CogniteAPIError 400))
  ∧ Fetcher_retrieve_multiple (demo_client []) (Fetcher true assets)
      ["A"; "Z"] []
    = ([RetrieveMultiple assets ["A"; "Z"] (Some true)], inr [pump])
  ∧ list_query 2 dedup_order
      (RelationshipsQuery_init
         (demo_client [edge "r6" "asset" "A" "asset" "Z"]))
      no_args []
    = Some ([RelationshipsList (list_kwargs no_args);
             RetrieveMultiple assets ["A"; "Z"] None],
            inl (CogniteAPIError 400)).
Proof.
  split; [|repeat split; vm_compute; reflexivity].
  intros ty fetcher Hf.
  destruct (registry_entries c ty fetcher Hf) as (flag & api & -> & _).
  exists flag, api. split; [done|]. apply call_retrieve_multiple_Fetcher.
Qed.

(** * Further properties of the module *)

(** ** The join index: what is filed and what is found *)

Lemma join_index_fold_is_Some (items : list (string * Resource))
    (m0 : gmap ResourceRef Resource) (ref : ResourceRef) :
  is_Some (m0 !! ref)
  ∨ (∃ r, (ref.1, r) ∈ items ∧ external_id r = ref.2) →
  is_Some
    (fold_left
       (λ m item, <[mkResourceRef item.1 (external_id item.2) := item.2]> m)
       items m0 !! ref).
Proof.
  revert m0. induction items as [|[ty r'] items IH]; intros m0 Hcase.
  - destruct Hcase as [?|(r & Hin & _)]; [done|by apply elem_of_nil in Hin].
  - cbn [fold_left fst snd]. apply IH.
    destruct Hcase as [Hm|(r & [[= <- <-]|Hin]%elem_of_cons & Hid)].
    + left. rewrite lookup_insert. by case_decide.
    + left. destruct ref as [ty id]. simpl in Hid. subst id.
      unfold mkResourceRef. cbn [fst]. by rewrite lookup_insert_eq.
    + right. eauto.
Qed.

Lemma join_index_snoc (items : list (string * Resource)) ty r :
  join_index (items ++ [(ty, r)])
  = <[mkResourceRef ty (external_id r) := r]> (join_index items).
Proof. unfold join_index. by rewrite fold_left_app. Qed.

(** The entry of a ref is the last returned resource filed under it. *)
Lemma join_index_last (items : list (string * Resource))
    (ty id : string) (r : Resource) :
  join_index items !! (ty, id) = Some r
  ↔ ∃ pre post,
      items = pre ++ (ty, r) :: post
      ∧ external_id r = id
      ∧ ∀ r', (ty, r') ∈ post → external_id r' ≠ id.
Proof.
  induction items as [|[ty0 r0] items IH] using rev_ind.
  - unfold join_index. cbn [fold_left]. rewrite lookup_empty.
    split; [done|]. intros (pre & post & Heq & _). by destruct pre.
  - rewrite join_index_snoc, lookup_insert. unfold mkResourceRef.
    case_decide as Hkey.
    + injection Hkey as -> <-. split.
      * intros [= <-]. exists items, []. split; [done|]. split; [done|].
        by intros r' ?%elem_of_nil.
      * intros (pre & post & Heq & Hid & Hlast).
        destruct post as [|z post _] using rev_ind.
        -- apply app_inj_tail in Heq as [_ [= ->]]. done.
        -- rewrite app_comm_cons, app_assoc in Heq.
           apply app_inj_tail in Heq as [_ <-].
           destruct (Hlast r0); [|done].
           apply elem_of_app. right. by left.
    + rewrite IH. split.
      * intros (pre & post & -> & Hid & Hlast).
        exists pre, (post ++ [(ty0, r0)]).
        split; [by rewrite <-app_assoc|]. split; [done|].
        intros r' [Hin|Hin%list_elem_of_singleton]%elem_of_app;
          [by apply Hlast|].
        injection Hin as <- <-. congruence.
      * intros (pre & post & Heq & Hid & Hlast).
        destruct post as [|z post _] using rev_ind.
        -- apply app_inj_tail in Heq as [_ [= <- <-]]. by subst id.
        -- rewrite app_comm_cons, app_assoc in Heq.
           apply app_inj_tail in Heq as [-> <-].
           exists pre, post. split; [done|]. split; [done|].
           intros r' Hin. apply Hlast, elem_of_app. by left.
Qed.

(** X1: the loop of lines 166-169 files every returned resource under its
    task type and its own external id: a ref has an entry exactly when a
    fetch of its type returned a resource with its external id, and the
    entry is the one among these that comes last in the joined results,
    wherever in the list it stands. *)
Theorem join_index_entry_iff_returned (items : list (string * Resource))
    (ty id : string) :
  (is_Some (join_index items !! (ty, id))
   ↔ ∃ r, (ty, r) ∈ items ∧ external_id r = id)
  ∧ (∀ r, join_index items !! (ty, id) = Some r
          ↔ ∃ pre post,
              items = pre ++ (ty, r) :: post
              ∧ external_id r = id
              ∧ ∀ r', (ty, r') ∈ post → external_id r' ≠ id).
Proof.
  split; [split|].
  - intros [r Hr]. exists r. by apply join_index_lookup.
  - intros Hret. apply (join_index_fold_is_Some items ∅ (ty, id)). by right.
  - intros r. apply join_index_last.
Qed.

(** ** What a drained query tells about the run *)

Lemma iterate_suspended_inv idx sf tf rels fuel tr tr' run :
  iterate fuel
    (GenSuspended {| fr_relations := rels; fr_index := idx;
                     fr_sources_filter := sf; fr_targets_filter := tf |})
    tr = Some (tr', run) →
  tr' = tr ∧ run = yielded idx sf tf rels.
Proof.
  revert rels tr' run.
  induction fuel as [|fuel IH]; intros rels tr' run; [done|].
  cbn [iterate next]. unfold resume.
  cbn [fr_relations fr_index fr_sources_filter fr_targets_filter].
  pose proof (loop_spec idx sf tf rels) as Hloop.
  destruct (yielded idx sf tf rels) as [[|item items] [e|]].
  - rewrite Hloop. by intros [= <- <-].
  - rewrite Hloop. by intros [= <- <-].
  - destruct Hloop as (rest & -> & Hrest & _).
    destruct (iterate fuel _ tr) as [[tr'' [items' stop']]|] eqn:Hit; [|done].
    destruct (IH _ _ _ Hit) as [-> Hrun]. rewrite Hrest in Hrun.
    injection Hrun as -> ->. by intros [= <- <-].
  - destruct Hloop as (rest & -> & Hrest & _).
    destruct (iterate fuel _ tr) as [[tr'' [items' stop']]|] eqn:Hit; [|done].
    destruct (IH _ _ _ Hit) as [-> Hrun]. rewrite Hrest in Hrun.
    injection Hrun as -> ->. by intros [= <- <-].
Qed.

Lemma list_query_inv so self args fuel tr tr' out :
  list_query fuel so self args tr = Some (tr', inr out) →
  ∃ rels,
    relationships_list (client self) (list_kwargs args) = inr rels
    ∧ exceptions (summary_of so self rels) = []
    ∧ tr' = tr ++ RelationshipsList (list_kwargs args)
               :: fetch_events self (tasks_of so rels)
    ∧ yielded (index_of so self rels)
        (default RelationshipFilterAll (sources_filter args))
        (default RelationshipFilterAll (targets_filter args)) rels
      = (out, None).
Proof.
  rewrite list_query_iterate.
  destruct fuel as [|fuel]; [done|]. rewrite iterate_created.
  destruct (relationships_list (client self) (list_kwargs args))
    as [e|rels] eqn:Hlist.
  - by rewrite (prologue_listing_fails so self args e tr Hlist).
  - rewrite (prologue_run so self args rels tr Hlist).
    destruct (exceptions (summary_of so self rels)) as [|e es] eqn:Hexc;
      [|done].
    destruct (iterate (S fuel) _ _) as [[tr'' run]|] eqn:Hit; [|done].
    apply iterate_suspended_inv in Hit as [-> ->].
    cbn [fmap option_fmap option_map fst snd]. unfold outcome_of.
    destruct (yielded _ _ _ rels) as [items [e|]] eqn:Hy; [done|].
    cbn [fst snd]. intros [= Htr Hout]. subst tr' out. by exists rels.
Qed.

(** X2: every edge that names the same ref gets the same resource: two
    emitted items whose endpoints (source or target, in any combination)
    are the same (type, external id) carry one and the same resolved
    resource there; so does an edge from a resource to itself. *)
Theorem same_ref_same_resource
    (so : SetOrder) (self : RelationshipsQuery) (args : QueryArgs)
    (fuel : nat) (tr tr' : list Event) (out : list RelationshipWithResource)
    (i1 i2 : RelationshipWithResource) :
  list_query fuel so self args tr = Some (tr', inr out) →
  i1 ∈ out → i2 ∈ out →
  (source_ref (relationship i1) = source_ref (relationship i2) →
   source_resource i1 = source_resource i2)
  ∧ (source_ref (relationship i1) = target_ref (relationship i2) →
     source_resource i1 = target_resource i2)
  ∧ (target_ref (relationship i1) = target_ref (relationship i2) →
     target_resource i1 = target_resource i2).
Proof.
  intros (rels & _ & _ & _ & Hrun)%list_query_inv H1 H2.
  change out with (out, @None Exn).1 in H1, H2. rewrite <-Hrun in H1, H2.
  apply yielded_elem in H1 as (rel1 & _ & Hres1).
  apply yielded_elem in H2 as (rel2 & _ & Hres2).
  apply resolve_Some in Hres1 as (<- & Hs1 & Ht1 & _).
  apply resolve_Some in Hres2 as (<- & Hs2 & Ht2 & _).
  repeat split; intros Href; rewrite Href in *; congruence.
Qed.

Lemma same_ref_same_resource_witness :
  source_resource item_r2 = target_resource item_r3.
Proof.
  refine (proj1 (proj2
    (same_ref_same_resource dedup_order
       (RelationshipsQuery_init (demo_client demo_relations)) no_args
       5 [] demo_calls demo_items item_r2 item_r3 _ _ _)) _).
  - vm_compute. reflexivity.
  - apply list_elem_of_In. simpl. tauto.
  - apply list_elem_of_In. simpl. tauto.
  - reflexivity.
Defined.

(** ** A type outside the registry *)

Lemma unregistered_task c ty ids :
  ty ∉ registry_types →
  task_outcome (RelationshipsQuery_init c) (ty, ids) = inl (KeyError ty)
  ∧ task_events (RelationshipsQuery_init c) (ty, ids) = [].
Proof.
  intros Hty. unfold task_outcome, task_events, fetch_per_type.
  destruct (fetchers (RelationshipsQuery_init c) !! ty) as [f|] eqn:Hf; [|done].
  exfalso. apply Hty, (registry_keys c). by rewrite Hf.
Qed.

(** X3: [self.fetchers[type]] has no entry for a type outside the five
    registry keys: the task of such a type makes no retrieval call and
    ends in [KeyError(type)], and a listing with one endpoint of such a
    type makes the whole query raise, with no item handed out, however
    many other edges resolve. *)
Theorem unregistered_type_aborts_query
    (so : SetOrder) (c : CogniteClient) (args : QueryArgs)
    (rels : list Relationship) (rel : Relationship) (tr : list Event) :
  relationships_list c (list_kwargs args) = inr rels →
  rel ∈ rels →
  (source_type rel ∉ registry_types) ∨ (target_type rel ∉ registry_types) →
  (∃ ty ids,
     (ty, ids) ∈ tasks_of so rels
     ∧ (ty = source_type rel ∨ ty = target_type rel)
     ∧ task_outcome (RelationshipsQuery_init c) (ty, ids) = inl (KeyError ty)
     ∧ task_events (RelationshipsQuery_init c) (ty, ids) = [])
  ∧ ∃ e tr',
      next (GenCreated so (RelationshipsQuery_init c) args) tr
      = (tr', (Raise e, GenClosed))
      ∧ ∀ fuel, 0 < fuel →
          list_query fuel so (RelationshipsQuery_init c) args tr
          = Some (tr', inl e).
Proof.
  intros Hlist Hrel Hbad.
  assert (Htask : ∃ ty ids,
             (ty, ids) ∈ tasks_of so rels
             ∧ (ty = source_type rel ∨ ty = target_type rel)
             ∧ ty ∉ registry_types).
  { assert (Hty : ∃ ty, (ty = source_type rel ∨ ty = target_type rel)
                        ∧ (ty ∉ registry_types)
                        ∧ ty ∈ (tasks_of so rels).*1).
    { destruct Hbad as [Hs|Ht].
      - exists (source_type rel). split; [by left|]. split; [done|].
        apply tasks_types. exists (source_external_id rel).
        apply elem_of_endpoint_refs. exists rel. auto.
      - exists (target_type rel). split; [by right|]. split; [done|].
        apply tasks_types. exists (target_external_id rel).
        apply elem_of_endpoint_refs. exists rel. auto. }
    destruct Hty as (ty & Hwhich & Hout & Hin).
    apply list_elem_of_fmap in Hin as ([ty' ids] & -> & Hin).
    by exists ty', ids. }
  destruct Htask as (ty & ids & Hin & Hwhich & Hout).
  destruct (unregistered_task c ty ids Hout) as [Hfail Hquiet].
  split; [by exists ty, ids|].
  destruct (summarize_first_failure
              (task_outcome (RelationshipsQuery_init c)) (tasks_of so rels))
    as (pre & task & e & post & es & _ & _ & _ & Hexc); [by eauto|].
  exists e. eexists. split.
  - cbn [next].
    rewrite (prologue_run so (RelationshipsQuery_init c) args rels tr Hlist).
    unfold summary_of. by rewrite Hexc.
  - intros fuel Hfuel.
    by apply (list_query_fetch_fails so (RelationshipsQuery_init c) args
                rels e es).
Qed.

Lemma unregistered_type_aborts_query_witness :
  ∃ e tr',
    next (GenCreated dedup_order
            (RelationshipsQuery_init
               (demo_client
                  (edge "r7" "asset" "A" "dataSet" "D" :: demo_relations)))
            no_args) []
    = (tr', (Raise e, GenClosed)).
Proof.
  destruct (unregistered_type_aborts_query dedup_order
              (demo_client
                 (edge "r7" "asset" "A" "dataSet" "D" :: demo_relations))
              no_args
              (edge "r7" "asset" "A" "dataSet" "D" :: demo_relations)
              (edge "r7" "asset" "A" "dataSet" "D") [])
    as (_ & e & tr' & Hnext & _).
  - reflexivity.
  - by left.
  - right. unfold registry_types. simpl.
    intros Hin. apply list_elem_of_In in Hin. simpl in Hin.
    repeat (destruct Hin as [Hin|Hin]; [discriminate Hin|]). destruct Hin.
  - by exists e, tr'.
Defined.

(** ** Filters come after the fetch *)






(** X5: the filter base class rejects every resource: with it as the sources
    or the targets filter the query still lists and fetches, raises what
    a failed fetch raised, and hands out no item; one advance is enough
    to exhaust it. *)
Theorem base_filter_hands_out_nothing
    (so : SetOrder) (self : RelationshipsQuery) (args : QueryArgs)
    (rels : list Relationship) (tr : list Event) (fuel : nat) :
  relationships_list (client self) (list_kwargs args) = inr rels →
  sources_filter args = Some RelationshipFilterBase
  ∨ targets_filter args = Some RelationshipFilterBase →
  0 < fuel →
  ∃ res,
    list_query fuel so self args tr
    = Some (tr ++ RelationshipsList (list_kwargs args)
               :: fetch_events self (tasks_of so rels), res)
    ∧ emitted res = [].
Proof.
  intros Hlist Hbase Hfuel.
  destruct (exceptions (summary_of so self rels)) as [|e es] eqn:Hexc.
  - set (idx := index_of so self rels).
    set (sf := default RelationshipFilterAll (sources_filter args)).
    set (tf := default RelationshipFilterAll (targets_filter args)).
    assert (Hnone : (yielded idx sf tf rels).1 = []).
    { apply elem_of_nil_inv. intros item Hin.
      apply yielded_elem in Hin as (rel & _ & Hres).
      apply resolve_Some in Hres as (_ & _ & _ & Hsf & Htf).
      subst sf tf. by destruct Hbase as [Hb|Hb]; rewrite Hb in *. }
    exists (outcome_of (yielded idx sf tf rels)). split.
    + rewrite list_query_iterate.
      destruct fuel as [|fuel]; [lia|].
      rewrite iterate_created, (prologue_run so self args rels tr Hlist), Hexc.
      cbn [iterate next]. unfold resume.
      cbn [fr_relations fr_index fr_sources_filter fr_targets_filter].
      fold idx sf tf.
      pose proof (loop_spec idx sf tf rels) as Hloop.
      destruct (yielded idx sf tf rels) as [[|item items] [e|]];
        [by rewrite Hloop..|done|done].
    + unfold outcome_of, emitted. rewrite Hnone.
      by destruct (yielded idx sf tf rels).2.
  - exists (inl e). split; [|done].
    by apply (list_query_fetch_fails so self args rels e es).
Qed.

Lemma base_filter_hands_out_nothing_witness :
  ∃ res,
    list_query 1 dedup_order
      (RelationshipsQuery_init (demo_client demo_relations))
      (with_targets_filter (Some RelationshipFilterBase) no_args) []
    = Some ([] ++ RelationshipsList
                    (list_kwargs
                       (with_targets_filter (Some RelationshipFilterBase)
                          no_args))
               :: fetch_events
                    (RelationshipsQuery_init (demo_client demo_relations))
                    (tasks_of dedup_order demo_relations), res)
    ∧ emitted res = [].
Proof.
  apply (base_filter_hands_out_nothing dedup_order
           (RelationshipsQuery_init (demo_client demo_relations))
           (with_targets_filter (Some RelationshipFilterBase) no_args)
           demo_relations [] 1).
  - reflexivity.
  - right. reflexivity.
  - lia.
Defined.

(** ** The label filter as a function of its accepted labels *)

Lemma existsb_label_in_app a a' ls :
  existsb (label_in (a ++ a')) ls
  = existsb (label_in a) ls || existsb (label_in a') ls.
Proof.
  induction ls as [|l ls IH]; [done|]. cbn [existsb]. rewrite IH.
  assert (Hl : label_in (a ++ a') l = label_in a l || label_in a' l).
  { unfold label_in. apply eq_true_iff_eq.
    rewrite orb_true_iff, !bool_decide_eq_true. apply elem_of_app. }
  rewrite Hl.
  destruct (label_in a l), (label_in a' l), (existsb (label_in a) ls),
    (existsb (label_in a') ls); done.
Qed.

(** X6: a label filter that accepts no label never accepts: it gives
    [False] on every resource that has a [labels] attribute; a resource
    that carries an empty label collection is rejected by every label
    filter; accepting more labels never turns an accepted resource away;
    whether the filter raises depends on the resource alone, not on the
    accepted labels; and where no exception is raised, the filter over
    two label lists put together accepts exactly what one of the two
    filters accepts. *)
Theorem label_filter_accepted_labels (a a' : list string) (r : Resource) :
  is_inside (RelationshipFilter []) r ≠ inr true
  ∧ (∀ v, labels r = inr v →
          is_inside (RelationshipFilter []) r = inr false)
  ∧ (labels r = inr (Some []) →
     is_inside (RelationshipFilter a) r = inr false)
  ∧ ((∀ l, l ∈ a → l ∈ a') →
     is_inside (RelationshipFilter a) r = inr true →
     is_inside (RelationshipFilter a') r = inr true)
  ∧ (∀ e, is_inside (RelationshipFilter a) r = inl e
          ↔ is_inside (RelationshipFilter a') r = inl e)
  ∧ (∀ b b',
       is_inside (RelationshipFilter a) r = inr b →
       is_inside (RelationshipFilter a') r = inr b' →
       is_inside (RelationshipFilter (a ++ a')) r = inr (b || b')).
Proof.
  assert (Hempty : ∀ ls, existsb (label_in []) (map externalId ls) = false).
  { intros ls. induction ls as [|l ls IH]; [done|]. cbn [map existsb].
    unfold label_in at 1. rewrite bool_decide_eq_false_2; [done|].
    apply not_elem_of_nil. }
  split; [|split; [|split; [|split; [|split]]]].
  - simpl. destruct (labels r) as [e|[ls|]]; [done| |done].
    by rewrite Hempty.
  - intros v Hv. simpl. rewrite Hv. destruct v as [ls|]; [|done].
    by rewrite Hempty.
  - intros Hnone. simpl. by rewrite Hnone.
  - intros Hsub. simpl. destruct (labels r) as [e|[ls|]]; [done| |done].
    intros [= Hex]. f_equal. revert Hex.
    rewrite !existsb_exists. intros (l & Hin & Hacc).
    exists l. split; [done|]. unfold label_in in *.
    apply bool_decide_eq_true. apply bool_decide_eq_true in Hacc. auto.
  - intros e. simpl. by destruct (labels r) as [e'|[ls|]].
  - intros b b'. simpl. destruct (labels r) as [e|[ls|]]; [done| |].
    + intros [= <-] [= <-]. f_equal. apply existsb_label_in_app.
    + by intros [= <-] [= <-].
Qed.

(** ** The resources given as sources and targets *)

Lemma list_to_set_external_ids (rs rs' : list Resource) :
  (∀ id, id ∈ map external_id rs ↔ id ∈ map external_id rs') →
  (list_to_set (map external_id rs) : gset string)
  = list_to_set (map external_id rs').
Proof.
  intros Hsame. apply set_eq. intros id.
  by rewrite !elem_of_list_to_set.
Qed.

(** X7: of the resources passed as [sources] (or [targets]) the query uses
    the set of their external ids and nothing else: two lists of
    resources with the same external ids, in any order, with any
    repetition and whatever else the resources hold, give the same
    listing call, the same advances and the same drained result. *)
Theorem sources_count_by_external_id_set
    (so : SetOrder) (self : RelationshipsQuery) (args : QueryArgs)
    (rs rs' : list Resource) (tr : list Event) :
  (∀ id, id ∈ map external_id rs ↔ id ∈ map external_id rs') →
  (list_kwargs (with_sources (Some rs) args)
   = list_kwargs (with_sources (Some rs') args)
   ∧ next (GenCreated so self (with_sources (Some rs) args)) tr
     = next (GenCreated so self (with_sources (Some rs') args)) tr
   ∧ ∀ fuel,
       list_query fuel so self (with_sources (Some rs) args) tr
       = list_query fuel so self (with_sources (Some rs') args) tr)
  ∧ (list_kwargs (with_targets (Some rs) args)
     = list_kwargs (with_targets (Some rs') args)
     ∧ next (GenCreated so self (with_targets (Some rs) args)) tr
       = next (GenCreated so self (with_targets (Some rs') args)) tr
     ∧ ∀ fuel,
         list_query fuel so self (with_targets (Some rs) args) tr
         = list_query fuel so self (with_targets (Some rs') args) tr).
Proof.
  intros Hsame. pose proof (list_to_set_external_ids rs rs' Hsame) as Hset.
  split.
  - assert (Hkw : list_kwargs (with_sources (Some rs) args)
                  = list_kwargs (with_sources (Some rs') args)).
    { unfold list_kwargs. cbn [with_sources sources targets source_types
        target_types query_labels data_set_ids limit fmap option_fmap
        option_map]. by rewrite Hset. }
    assert (Hnext : next (GenCreated so self (with_sources (Some rs) args)) tr
                    = next (GenCreated so self (with_sources (Some rs') args))
                        tr).
    { cbn [next].
      by rewrite (prologue_filters so self (with_sources (Some rs) args)
                    (with_sources (Some rs') args) tr Hkw). }
    split; [done|]. split; [done|].
    intros fuel. unfold list_query, query. cbn [mret M_ret].
    by apply consume_ext.
  - assert (Hkw : list_kwargs (with_targets (Some rs) args)
                  = list_kwargs (with_targets (Some rs') args)).
    { unfold list_kwargs. cbn [with_targets sources targets source_types
        target_types query_labels data_set_ids limit fmap option_fmap
        option_map]. by rewrite Hset. }
    assert (Hnext : next (GenCreated so self (with_targets (Some rs) args)) tr
                    = next (GenCreated so self (with_targets (Some rs') args))
                        tr).
    { cbn [next].
      by rewrite (prologue_filters so self (with_targets (Some rs) args)
                    (with_targets (Some rs') args) tr Hkw). }
    split; [done|]. split; [done|].
    intros fuel. unfold list_query, query. cbn [mret M_ret].
    by apply consume_ext.
Qed.

Lemma sources_count_by_external_id_set_witness :
  list_kwargs (with_sources (Some [pump; valve; pump]) no_args)
  = list_kwargs
      (with_sources (Some [SDK.Asset "B" None 7; pump]) no_args).
Proof.
  apply (sources_count_by_external_id_set dedup_order
           (RelationshipsQuery_init (demo_client demo_relations)) no_args
           [pump; valve; pump]
           [SDK.Asset "B" None 7; pump]
           []).
  intros id. simpl. rewrite !elem_of_cons, !elem_of_nil. tauto.
Defined.

(** ** When every fetch returns what it was asked for *)

Lemma joined_results_elem {T} (f : T → Exn + list (string * Resource))
    (tasks : list T) t res x :
  t ∈ tasks → f t = inr res → x ∈ res →
  x ∈ joined_results (summarize (map f tasks)).
Proof.
  unfold joined_results. intros Hin Hres Hx.
  induction tasks as [|t0 tasks IH]; [by apply elem_of_nil in Hin|].
  cbn [map summarize].
  apply elem_of_cons in Hin as [<-|Hin].
  - rewrite Hres. cbn [results concat]. apply elem_of_app. by left.
  - destruct (f t0) as [e0|res0]; cbn [results concat]; [by apply IH|].
    apply elem_of_app. right. by apply IH.
Qed.

Lemma yielded_keeps_all idx sf tf (rels : list Relationship) :
  (∀ rel, rel ∈ rels →
     ∃ item, resolve idx sf tf rel = inr (Some item)
             ∧ relationship item = rel) →
  (yielded idx sf tf rels).2 = None
  ∧ relationship <$> (yielded idx sf tf rels).1 = rels.
Proof.
  induction rels as [|rel rels IH]; intros Hall; [done|].
  cbn [yielded].
  destruct (Hall rel) as (item & -> & Hitem); [by left|].
  cbn [fst snd fmap list_fmap].
  destruct IH as [IHstop IHall].
  { intros rel' Hrel'. apply Hall. by right. }
  split; [done|]. by rewrite Hitem, IHall.
Qed.

(** X8: with both filters omitted, if every fetch task returns, for each
    external id it was given, a resource with that external id, then the
    query hands out every listed edge, in listing order, none dropped. *)
Theorem complete_fetch_resolves_every_edge
    (so : SetOrder) (self : RelationshipsQuery) (args : QueryArgs)
    (rels : list Relationship) (tr : list Event) (fuel : nat) :
  relationships_list (client self) (list_kwargs args) = inr rels →
  sources_filter args = None →
  targets_filter args = None →
  (∀ ty ids, (ty, ids) ∈ tasks_of so rels →
     ∃ res, task_outcome self (ty, ids) = inr res
            ∧ ∀ id, id ∈ ids → ∃ r, (ty, r) ∈ res ∧ external_id r = id) →
  length rels < fuel →
  ∃ tr' out,
    list_query fuel so self args tr = Some (tr', inr out)
    ∧ relationship <$> out = rels.
Proof.
  intros Hlist Hsf Htf Hfetch Hfuel.
  assert (Hexc : exceptions (summary_of so self rels) = []).
  { apply summarize_no_failure. intros [ty ids] Hin.
    destruct (Hfetch ty ids Hin) as (res & Hres & _). eauto. }
  assert (Hfound : ∀ ty id, (ty, id) ∈ endpoint_refs rels →
                     is_Some (index_of so self rels !! (ty, id))).
  { intros ty id Href.
    assert (Hty : ty ∈ (tasks_of so rels).*1)
      by (apply tasks_types; eauto).
    apply list_elem_of_fmap in Hty as ([ty' ids] & -> & Hin). cbn [fst] in *.
    destruct (tasks_ids so rels ty' ids Hin) as (_ & _ & Hmem).
    destruct (Hfetch ty' ids Hin) as (res & Hres & Hall).
    destruct (Hall id) as (r & Hr & Hid); [by apply Hmem|].
    apply (join_index_fold_is_Some _ ∅ (ty', id)). right.
    exists r. split; [|done].
    by apply (joined_results_elem (task_outcome self) (tasks_of so rels)
                (ty', ids) res). }
  destruct (yielded_keeps_all (index_of so self rels)
              RelationshipFilterAll RelationshipFilterAll rels)
    as [Hstop Hall].
  { intros rel Hrel.
    destruct (Hfound (source_type rel) (source_external_id rel)) as [s Hs].
    { apply elem_of_endpoint_refs. exists rel. auto. }
    destruct (Hfound (target_type rel) (target_external_id rel)) as [t Ht].
    { apply elem_of_endpoint_refs. exists rel. auto. }
    exists {| relationship := rel; source_resource := s;
              target_resource := t |}.
    split; [|done]. by apply resolve_Some. }
  eexists _, _. split; [|exact Hall].
  rewrite (list_query_ok so self args rels) by done.
  rewrite Hsf, Htf. cbn [default]. unfold outcome_of. by rewrite Hstop.
Qed.

Lemma complete_fetch_resolves_every_edge_witness :
  ∃ tr' out,
    list_query 5 dedup_order
      (RelationshipsQuery_init (demo_client demo_relations)) no_args []
    = Some (tr', inr out)
    ∧ relationship <$> out = demo_relations.
Proof.
  apply (complete_fetch_resolves_every_edge dedup_order
           (RelationshipsQuery_init (demo_client demo_relations)) no_args
           demo_relations [] 5).
  - reflexivity.
  - reflexivity.
  - reflexivity.
  - intros ty ids Hin. apply list_elem_of_In in Hin. vm_compute in Hin.
    destruct Hin as [Hin|[Hin|[Hin|[]]]]; injection Hin as <- <-.
    + exists [("timeSeries", flow)]. split; [reflexivity|].
      intros id Hid. apply list_elem_of_singleton in Hid as ->.
      exists flow. split; [by left|reflexivity].
    + exists [("asset", valve); ("asset", pump)]. split; [reflexivity|].
      intros id Hid. apply elem_of_cons in Hid as [->|Hid].
      * exists valve. split; [by left|reflexivity].
      * apply list_elem_of_singleton in Hid as ->.
        exists pump. split; [right; by left|reflexivity].
    + exists [("file", manual)]. split; [reflexivity|].
      intros id Hid. apply list_elem_of_singleton in Hid as ->.
      exists manual. split; [by left|reflexivity].
  - simpl. lia.
Defined.

(** ** How many retrieval calls one query makes *)

Lemma registry_api_type_name c ty api :
  registry_api (RelationshipsQuery_init c) ty = Some api →
  ty = type_name api.
Proof.
  unfold registry_api.
  destruct (fetchers (RelationshipsQuery_init c) !! ty) as [f|] eqn:Hf;
    [|done].
  cbn [fetchers RelationshipsQuery_init] in Hf.
  repeat (rewrite lookup_insert in Hf; case_decide);
    [..|by rewrite lookup_empty in Hf];
    injection Hf as <-; subst ty; by intros [= <-].
Qed.

Lemma registry_calls_NoDup c (tasks : list (string * list string)) :
  NoDup tasks.*1 →
  NoDup (omap (λ task, registry_api (RelationshipsQuery_init c) task.1)
           tasks).
Proof.
  induction tasks as [|[ty ids] tasks IH]; [constructor|].
  cbn [fmap list_fmap fst omap list_omap].
  intros [Hty Hnd]%NoDup_cons.
  destruct (registry_api (RelationshipsQuery_init c) ty) as [api|] eqn:Hapi;
    [|by apply IH].
  apply NoDup_cons. split; [|by apply IH].
  intros ([ty' ids'] & Hin & Hapi')%list_elem_of_omap. cbn [fst] in Hapi'.
  apply registry_api_type_name in Hapi, Hapi'. subst ty ty'.
  apply Hty. by apply (list_elem_of_fmap_2 fst) in Hin.
Qed.

Lemma fetch_events_task_calls c (tasks : list (string * list string)) :
  fetch_events (RelationshipsQuery_init c) tasks
  = omap (task_call (RelationshipsQuery_init c)) tasks.
Proof.
  unfold fetch_events.
  induction tasks as [|[ty ids] tasks IH]; [done|].
  cbn [map concat omap list_omap]. rewrite registry_task_events, IH.
  unfold task_call. cbn [fst snd].
  by destruct (registry_api (RelationshipsQuery_init c) ty).
Qed.

Lemma task_calls_apis self (tasks : list (string * list string)) :
  omap called_api (omap (task_call self) tasks)
  = omap (λ task, registry_api self task.1) tasks
  ∧ length (omap (task_call self) tasks)
    = length (omap (λ task, registry_api self task.1) tasks)
  ∧ length (omap (task_call self) tasks) ≤ length tasks.
Proof.
  induction tasks as [|[ty ids] tasks (IH1 & IH2 & IH3)]; [done|].
  assert (Hcall : task_call self (ty, ids)
                  = (λ api, RetrieveMultiple api ids None)
                      <$> registry_api self ty) by done.
  cbn [omap list_omap fst]. rewrite Hcall.
  destruct (registry_api self ty) as [api|];
    cbn [fmap option_fmap option_map omap list_omap called_api length].
  - rewrite IH1. split; [done|]. split; lia.
  - split; [done|]. split; [done|lia].
Qed.

(** X9: whatever the listing, the first advance makes, after the listing
    call, at most one retrieval call to each of the five resource APIs,
    hence at most five calls, never more calls than tasks; and the tasks
    are as many as there are distinct endpoint types in the listing. *)
Theorem at_most_one_call_per_api
    (so : SetOrder) (c : CogniteClient) (args : QueryArgs)
    (rels : list Relationship) (tr : list Event) :
  relationships_list c (list_kwargs args) = inr rels →
  ∃ evs,
    (next (GenCreated so (RelationshipsQuery_init c) args) tr).1
    = tr ++ RelationshipsList (list_kwargs args) :: evs
    ∧ length (omap called_api evs) = length evs
    ∧ NoDup (omap called_api evs)
    ∧ length evs ≤ 5
    ∧ length evs ≤ length (tasks_of so rels)
    ∧ length (tasks_of so rels)
      = size (list_to_set (endpoint_refs rels).*1 : gset string).
Proof.
  intros Hlist.
  set (self := RelationshipsQuery_init c).
  destruct (task_calls_apis self (tasks_of so rels)) as (Hapis & Hlen & Hle).
  assert (Hnd : NoDup (omap (λ task, registry_api self task.1)
                         (tasks_of so rels)))
    by apply registry_calls_NoDup, tasks_types_NoDup.
  exists (omap (task_call self) (tasks_of so rels)).
  split.
  { rewrite (next_created_trace so self args rels tr Hlist).
    subst self. by rewrite fetch_events_task_calls. }
  rewrite Hapis. split; [done|]. split; [done|]. split; [|split; [done|]].
  - rewrite Hlen.
    change 5 with (length [assets; time_series; files; events; sequences]).
    apply submseteq_length, NoDup_submseteq; [done|].
    intros api _. destruct api; set_solver.
  - rewrite <-(length_fmap fst (tasks_of so rels)).
    rewrite <-(size_list_to_set (C:=gset string)) by apply tasks_types_NoDup.
    f_equal. apply set_eq. intros ty.
    rewrite !elem_of_list_to_set, tasks_types, list_elem_of_fmap. split.
    + intros (id & Hin). by exists (ty, id).
    + intros ([ty' id] & -> & Hin). by exists id.
Qed.

Lemma at_most_one_call_per_api_witness :
  ∃ evs,
    (next (GenCreated dedup_order
             (RelationshipsQuery_init
                (demo_client
                   (edge "r7" "asset" "A" "dataSet" "D" :: demo_relations)))
             no_args) []).1
    = [] ++ RelationshipsList (list_kwargs no_args) :: evs
    ∧ length evs = 3.
Proof.
  destruct (at_most_one_call_per_api dedup_order
              (demo_client
                 (edge "r7" "asset" "A" "dataSet" "D" :: demo_relations))
              no_args
              (edge "r7" "asset" "A" "dataSet" "D" :: demo_relations) [])
    as (evs & Htrace & _).
  - reflexivity.
  - exists evs. split; [exact Htrace|].
    vm_compute in Htrace. injection Htrace as <-. reflexivity.
Defined.
